(** * organize.py: path mapping, schema validation and the copy loop

    A shallow embedding of [organize.py].  The script reads a source tree,
    matches every file's relative path against a regular expression built
    from [inputKeys], rebuilds the path from [outputKeys] and copies the file
    to the rebuilt place under the destination root.

    Python strings are sequences of Unicode code points; the two regular
    expressions of the script are kept as syntax trees and run by a small
    backtracking matcher that follows [re.match]. *)

From Stdlib Require Import List NArith Arith Bool Lia String Ascii Decimal Permutation.
Import ListNotations.

Set Implicit Arguments.

(** ** Strings *)

Definition char := N.
Definition str := list char.

(** A Rocq literal read as a Python string (code points below 256). *)
Definition u (s : string) : str := map N_of_ascii (list_ascii_of_string s).

Definition LF : char := 10%N.
Definition SLASH : char := 47%N.
Definition BACKSLASH : char := 92%N.
Definition UNDERSCORE : char := 95%N.

Fixpoint str_eqb (a b : str) : bool :=
  match a, b with
  | [], [] => true
  | x :: a', y :: b' => N.eqb x y && str_eqb a' b'
  | _, _ => false
  end.

(** [sep.join(parts)] *)
Fixpoint join (sep : str) (parts : list str) : str :=
  match parts with
  | [] => []
  | [w] => w
  | w :: rest => w ++ sep ++ join sep rest
  end.

(** [l.count(x)] and [x in l] on lists of strings *)
Definition count (x : str) (l : list str) : nat :=
  List.length (filter (str_eqb x) l).

Definition mem (x : str) (l : list str) : bool := existsb (str_eqb x) l.

(** Decimal rendering of a counter, as an f-string prints it. *)
Fixpoint digits (d : uint) : str :=
  match d with
  | Nil => []
  | D0 r => 48%N :: digits r
  | D1 r => 49%N :: digits r
  | D2 r => 50%N :: digits r
  | D3 r => 51%N :: digits r
  | D4 r => 52%N :: digits r
  | D5 r => 53%N :: digits r
  | D6 r => 54%N :: digits r
  | D7 r => 55%N :: digits r
  | D8 r => 56%N :: digits r
  | D9 r => 57%N :: digits r
  end.

Definition dec (n : nat) : str := digits (Nat.to_uint n).

(** ** What the interpreter's Unicode database decides

    [\w] and [str.isidentifier] are fixed on ASCII; on other code points they
    consult the Unicode database of the interpreter, which is not part of the
    repository and is taken as given. *)
Record UnicodeData := {
  uni_isalnum : char -> bool;       (* str.isalnum on a code point >= 128 *)
  uni_xid_start : char -> bool;     (* XID_Start on a code point >= 128 *)
  uni_xid_continue : char -> bool   (* XID_Continue on a code point >= 128 *)
}.

(** A database in which no code point above ASCII is a letter or a digit. *)
Definition ascii_only : UnicodeData :=
  {| uni_isalnum := fun _ => false;
     uni_xid_start := fun _ => false;
     uni_xid_continue := fun _ => false |}.

(** A database that knows one letter above ASCII, U+00E9 (e with acute
    accent), which the interpreter's database has as a lowercase letter. *)
Definition E_ACUTE : char := 233%N.

Definition with_e_acute : UnicodeData :=
  {| uni_isalnum := N.eqb E_ACUTE;
     uni_xid_start := N.eqb E_ACUTE;
     uni_xid_continue := N.eqb E_ACUTE |}.

Definition is_ascii_digit (c : char) : bool := (48 <=? c)%N && (c <=? 57)%N.
Definition is_ascii_letter (c : char) : bool :=
  ((65 <=? c)%N && (c <=? 90)%N) || ((97 <=? c)%N && (c <=? 122)%N).

(** The set [A-Za-z0-9_]. *)
Definition is_ascii_word (c : char) : bool :=
  is_ascii_letter c || is_ascii_digit c || N.eqb c UNDERSCORE.

Section Python.

Variable ucd : UnicodeData.

(** [\w] in a [str] pattern: alphanumeric or underscore. *)
Definition is_word (c : char) : bool :=
  if (c <? 128)%N then is_ascii_word c else uni_isalnum ucd c.

Definition is_id_start (c : char) : bool :=
  if (c <? 128)%N then is_ascii_letter c || N.eqb c UNDERSCORE
  else uni_xid_start ucd c.

Definition is_id_continue (c : char) : bool :=
  if (c <? 128)%N then is_ascii_word c else uni_xid_continue ucd c.

(** [str.isidentifier] *)
Definition isidentifier (s : str) : bool :=
  match s with
  | [] => false
  | c :: rest => is_id_start c && forallb is_id_continue rest
  end.

(** ** Regular expressions

    Only the constructs the script writes: [^], [$], a literal, an optional
    literal [c?], a repeated character class [cls+], and a named group around
    one, [(?P<name>cls+)]. *)
Inductive cls :=
| NoneOf (cs : list char)   (* [^...] *)
| WordCls.                  (* \w *)

Inductive item :=
| Bol
| Eol
| Lit (c : char)
| Opt (c : char)
| Plus (k : cls)
| Named (name : str) (k : cls).

Definition pattern := list item.

Definition in_cls (k : cls) (c : char) : bool :=
  match k with
  | NoneOf cs => negb (existsb (N.eqb c) cs)
  | WordCls => is_word c
  end.

(** Length of the longest prefix of [s] inside the class: what a greedy
    [cls+] takes first. *)
Fixpoint span (k : cls) (s : str) : nat :=
  match s with
  | c :: s' => if in_cls k c then S (span k s') else 0
  | [] => 0
  end.

(** Backtracking over a greedy repetition: the continuation is tried with
    [n] characters, then [n - 1], down to one. *)
Fixpoint try_down (A : Type) (f : nat -> option A) (n : nat) : option A :=
  match n with
  | 0 => None
  | S m => match f (S m) with
           | Some r => Some r
           | None => try_down f m
           end
  end.

(** The groups captured so far, in the order of the pattern. *)
Definition captures := list (str * str).

(** [exec p pos s caps]: match pattern [p] against the rest [s] of the
    subject, [pos] characters of which are already consumed.  Without
    re.MULTILINE, [^] holds at position 0 only and [$] holds at the end of
    the subject and just before a line feed that ends it. *)
Fixpoint exec (p : pattern) (pos : nat) (s : str) (caps : captures)
  : option captures :=
  match p with
  | [] => Some caps
  | Bol :: p' => if Nat.eqb pos 0 then exec p' pos s caps else None
  | Eol :: p' =>
      match s with
      | [] => exec p' pos s caps
      | [c] => if N.eqb c LF then exec p' pos s caps else None
      | _ => None
      end
  | Lit c :: p' =>
      match s with
      | x :: s' => if N.eqb x c then exec p' (S pos) s' caps else None
      | [] => None
      end
  | Opt c :: p' =>
      match s with
      | x :: s' =>
          if N.eqb x c then
            match exec p' (S pos) s' caps with
            | Some r => Some r
            | None => exec p' pos s caps
            end
          else exec p' pos s caps
      | [] => exec p' pos s caps
      end
  | Plus k :: p' =>
      try_down (fun n => exec p' (pos + n) (skipn n s) caps) (span k s)
  | Named name k :: p' =>
      try_down
        (fun n => exec p' (pos + n) (skipn n s) (caps ++ [(name, firstn n s)]))
        (span k s)
  end.

(** [re.match(pattern, s)]: a match at the start of [s], or None. *)
Definition re_match (p : pattern) (s : str) : option captures := exec p 0 s [].

Definition group_names (p : pattern) : list str :=
  flat_map (fun i => match i with Named n _ => [n] | _ => [] end) p.

Fixpoint distinct (l : list str) : bool :=
  match l with
  | [] => true
  | x :: r => negb (mem x r) && distinct r
  end.

(** [re.compile]: raises [re.error] (here None) on a group name that is not
    an identifier and on a group name defined twice. *)
Definition re_compile (p : pattern) : option pattern :=
  if forallb isidentifier (group_names p) && distinct (group_names p)
  then Some p else None.

(** [match.groupdict()] as an association list; the names are distinct. *)
Fixpoint lookup (d : captures) (key : str) : option str :=
  match d with
  | [] => None
  | (k, v) :: d' => if str_eqb key k then Some v else lookup d' key
  end.

(** ** Schema validation *)

(** The four assertions of the script; [message] is the text each carries. *)
Inductive AssertionError :=
| InvalidInputKey (key : str)
| DuplicateInputKey (key : str)
| InvalidOutputKey (key : str)
| UnknownOutputKey (key : str).

Definition message (e : AssertionError) : str :=
  match e with
  | InvalidInputKey key =>
      u "Error: invalid character in inputKeys (in key '" ++ key ++ u "')"
  | DuplicateInputKey key =>
      u "Error: duplicate key '" ++ key ++ u "' in inputKeys"
  | InvalidOutputKey key =>
      u "Error: invalid character in outputKeys (in key '" ++ key ++ u "')"
  | UnknownOutputKey key =>
      u "Error: '" ++ key ++ u "' doesn't exist in inputKeys"
  end.

Definition offending (e : AssertionError) : str :=
  match e with
  | InvalidInputKey key | DuplicateInputKey key
  | InvalidOutputKey key | UnknownOutputKey key => key
  end.

(** [r"^\w+$"] *)
Definition key_regex : pattern := [Bol; Plus WordCls; Eol].

Definition is_Some (A : Type) (o : option A) : bool :=
  match o with Some _ => true | None => false end.

(** The loop of [validateInputKeysConfig] over the keys still to visit;
    None when no assertion fails. *)
Fixpoint validateInputKeys_from (inputKeys rest : list str)
  : option AssertionError :=
  match rest with
  | [] => None
  | key :: rest' =>
      if negb (is_Some (re_match key_regex key)) then
        Some (InvalidInputKey key)
      else if negb (Nat.eqb (count key inputKeys) 1) then
        Some (DuplicateInputKey key)
      else validateInputKeys_from inputKeys rest'
  end.

Definition validateInputKeysConfig (inputKeys : list str)
  : option AssertionError :=
  validateInputKeys_from inputKeys inputKeys.

Fixpoint validateOutputKeysConfig (inputKeys outputKeys : list str)
  : option AssertionError :=
  match outputKeys with
  | [] => None
  | key :: rest =>
      if negb (is_Some (re_match key_regex key)) then
        Some (InvalidOutputKey key)
      else if negb (mem key inputKeys) then
        Some (UnknownOutputKey key)
      else validateOutputKeysConfig inputKeys rest
  end.

(** The body of the [try] block: input keys first, then output keys. *)
Definition validate (inputKeys outputKeys : list str) : option AssertionError :=
  match validateInputKeysConfig inputKeys with
  | Some e => Some e
  | None => validateOutputKeysConfig inputKeys outputKeys
  end.

(** The start-up block: what it prints, and whether the script goes on
    ([false] is the call of [exit()]). *)
Definition startup (inputKeys outputKeys : list str) (printed : str)
  : str * bool :=
  match validate inputKeys outputKeys with
  | None => (printed, true)
  | Some e =>
      (printed ++ message e ++ [LF]
         ++ u "Configuration error: please check the path mapping and try again"
         ++ [LF],
       false)
  end.

(** ** The path transformer *)

(** [rf"(?P<{key}>[^\\/]+)"] for each key.  [main] runs after validation
    only, and a name that passes validation holds no [>]: the text between
    [<] and [>] is read back as the name, which [re.compile] then accepts or
    refuses. *)
Definition captureGroups (inputKeys : list str) : list item :=
  map (fun key => Named key (NoneOf [BACKSLASH; SLASH])) inputKeys.

(** [r"\\".join(captureGroups)]: one literal backslash between groups. *)
Fixpoint joinedCaptureGroups (groups : list item) : pattern :=
  match groups with
  | [] => []
  | [g] => [g]
  | g :: rest => g :: Lit BACKSLASH :: joinedCaptureGroups rest
  end.

(** [rf"^\\?{joinedCaptureGroups}$"] *)
Definition inputPathRegex (inputKeys : list str) : pattern :=
  Bol :: Opt BACKSLASH :: joinedCaptureGroups (captureGroups inputKeys) ++ [Eol].

(** [[parts[key] for key in outputKeys if key in parts]] *)
Fixpoint selected (parts : captures) (outputKeys : list str) : list str :=
  match outputKeys with
  | [] => []
  | key :: rest =>
      match lookup parts key with
      | Some v => v :: selected parts rest
      | None => selected parts rest
      end
  end.

(** The closure returned by [getTransformPathFunction]; None is Python's
    None, returned when the function falls off its end. *)
Definition transformFunction (rx : pattern) (outputKeys : list str)
  (relativePath : str) : option str :=
  match re_match rx relativePath with
  | Some parts =>
      match parts with
      | [] => None                      (* an empty dict is falsy *)
      | _ :: _ => Some (join [SLASH] (selected parts outputKeys))
      end
  | None => None
  end.

(** None when [re.compile] raises. *)
Definition getTransformPathFunction (inputKeys outputKeys : list str)
  : option (str -> option str) :=
  match re_compile (inputPathRegex inputKeys) with
  | Some rx => Some (transformFunction rx outputKeys)
  | None => None
  end.

(** ** The copy loop *)

(** The copy is attempted inside [try ... except (IOError, SameFileError)].
    [IOError] is [OSError]; anything else a collaborator raises is not caught
    there. *)
Inductive exn :=
| OSError (msg : str)
| SameFileError (msg : str)
| OtherException (msg : str).

Definition caught (e : exn) : bool :=
  match e with
  | OSError _ | SameFileError _ => true
  | OtherException _ => false
  end.

Definition exn_str (e : exn) : str :=
  match e with
  | OSError msg | SameFileError msg | OtherException msg => msg
  end.

(** What the script asks of [pathlib], [glob] and [shutil].  A file-system
    action takes the file system and returns it with the exception it
    raised, if any. *)
Record Collaborators := {
  FS : Type;
  path : Type;
  Path : str -> path;
  path_str : path -> str;                      (* str(p), also in f-strings *)
  absolute : path -> path;
  parent : path -> path;
  relative_to : path -> path -> path;
  joinpath : path -> path -> path;
  glob_recursive : FS -> str -> list str;      (* glob.glob(_, recursive=True) *)
  is_file : FS -> path -> bool;
  path_exists : FS -> path -> bool;
  mkdir_parents : path -> FS -> FS * option exn;
  copy2 : path -> path -> FS -> FS * option exn
}.

Inductive level := INFO | WARNING | ERROR.

Section Orchestrator.

Variable env : Collaborators.

(** The counters of [main], what it has printed, the records handed to the
    logger (kept apart from the file system) and the file system. *)
Record state := {
  fileCopiedCount : nat;
  fileIgnoredCount : nat;
  fileSkippedCount : nat;
  copyErrorCount : nat;
  stdout : str;
  log : list (level * str);
  fs : FS env
}.

(** [sys.argv] of length three, or the usage line and [exit()] (None). *)
Definition usage : str :=
  u "Usage: python organize.py <source_folder> <destination_folder>" ++ [LF].

Definition getRootsFromCommandLine (argv : list str)
  : option (path env * path env) :=
  match argv with
  | [_; a1; a2] => Some (absolute env (Path env a1), absolute env (Path env a2))
  | _ => None
  end.

(** [destination] is a [Path] at the one call, so the conversion is skipped. *)
Definition copyFile (source destination : path env) (s : FS env)
  : FS env * option exn :=
  let made :=
    if negb (path_exists env s (parent env destination))
    then mkdir_parents env (parent env destination) s
    else (s, None) in
  match made with
  | (s1, Some e) => (s1, Some e)
  | (s1, None) => copy2 env (absolute env source) (absolute env destination) s1
  end.

Definition getAllFilesInDirectory (s : FS env) (root : path env)
  : list (path env) :=
  let allItems := glob_recursive env s (path_str env root ++ u "/**") in
  let allItemsAsPath := map (Path env) allItems in
  map (absolute env) (filter (is_file env s) allItemsAsPath).

(** One turn of the [for] loop.  [inl e] is an exception that leaves the
    loop.  The closure is handed a [Path] and calls [str] on it, which is
    [path_str] here. *)
Definition process (transformPath : str -> option str)
  (sourceDir dstDir : path env) (st : state) (file : path env)
  : exn + state :=
  let sourceRelativePath := relative_to env file sourceDir in
  let ignore :=
    {| fileCopiedCount := fileCopiedCount st;
       fileIgnoredCount := fileIgnoredCount st + 1;
       fileSkippedCount := fileSkippedCount st;
       copyErrorCount := copyErrorCount st;
       stdout := stdout st ++ u "!";
       log := log st ++
         [(WARNING, u "Ignore file: " ++ path_str env file
                      ++ u " doesn't match the pattern")];
       fs := fs st |} in
  match transformPath (path_str env sourceRelativePath) with
  | Some (c :: d) =>
      let destinationRelativePath := c :: d in
      let sourceAbsolutePath := joinpath env sourceDir sourceRelativePath in
      let destinationAbsolutePath :=
        joinpath env dstDir (Path env destinationRelativePath) in
      if negb (path_exists env (fs st) destinationAbsolutePath) then
        let log1 := log st ++
          [(INFO, u "Copy " ++ path_str env sourceAbsolutePath ++ u " to "
                    ++ path_str env destinationAbsolutePath)] in
        match copyFile sourceAbsolutePath destinationAbsolutePath (fs st) with
        | (s', Some e) =>
            if caught e then
              inr {| fileCopiedCount := fileCopiedCount st;
                     fileIgnoredCount := fileIgnoredCount st;
                     fileSkippedCount := fileSkippedCount st;
                     copyErrorCount := copyErrorCount st + 1;
                     stdout := stdout st ++ u "E";
                     log := log1 ++
                       [(ERROR, u "Error copying "
                                  ++ path_str env sourceAbsolutePath
                                  ++ u ": " ++ exn_str e)];
                     fs := s' |}
            else inl e
        | (s', None) =>
            inr {| fileCopiedCount := fileCopiedCount st + 1;
                   fileIgnoredCount := fileIgnoredCount st;
                   fileSkippedCount := fileSkippedCount st;
                   copyErrorCount := copyErrorCount st;
                   stdout := stdout st ++ u "+";
                   log := log1;
                   fs := s' |}
        end
      else
        inr {| fileCopiedCount := fileCopiedCount st;
               fileIgnoredCount := fileIgnoredCount st;
               fileSkippedCount := fileSkippedCount st + 1;
               copyErrorCount := copyErrorCount st;
               stdout := stdout st ++ u "-";
               log := log st ++
                 [(WARNING, u "Skip file: "
                              ++ path_str env destinationAbsolutePath
                              ++ u " already exists")];
               fs := fs st |}
  | Some [] => inr ignore          (* the empty string is falsy *)
  | None => inr ignore
  end.

(** The [for] loop. *)
Fixpoint process_all (transformPath : str -> option str)
  (sourceDir dstDir : path env) (files : list (path env)) (st : state)
  : exn + state :=
  match files with
  | [] => inr st
  | file :: rest =>
      match process transformPath sourceDir dstDir st file with
      | inl e => inl e
      | inr st' => process_all transformPath sourceDir dstDir rest st'
      end
  end.

Definition summary (total : nat) (st : state) : str :=
  [LF] ++ u "+ " ++ dec (fileCopiedCount st) ++ u " / " ++ dec total
       ++ u " copied" ++ [LF]
  ++ u "! " ++ dec (fileIgnoredCount st) ++ u " ignored (not matching)" ++ [LF]
  ++ u "- " ++ dec (fileSkippedCount st) ++ u " skipped (already exists)" ++ [LF]
  ++ u "E " ++ dec (copyErrorCount st) ++ u " failed (copy error)" ++ [LF]
  ++ [LF] ++ u "See log.txt for more information" ++ [LF]
  ++ [LF].

Definition initial (s : FS env) : state :=
  {| fileCopiedCount := 0; fileIgnoredCount := 0; fileSkippedCount := 0;
     copyErrorCount := 0; stdout := []; log := []; fs := s |}.

Inductive outcome :=
| Finished (st : state)            (* [main] returned *)
| Exited (printed : str)           (* [exit()] *)
| ReError                          (* [re.compile] raised *)
| Uncaught (e : exn).              (* an exception left the loop *)

Definition main (inputKeys outputKeys : list str) (argv : list str)
  (s : FS env) : outcome :=
  match getTransformPathFunction inputKeys outputKeys with
  | None => ReError
  | Some transformPath =>
      match getRootsFromCommandLine argv with
      | None => Exited usage
      | Some (sourceDir, dstDir) =>
          let files := getAllFilesInDirectory s sourceDir in
          match process_all transformPath sourceDir dstDir files (initial s) with
          | inl e => Uncaught e
          | inr st =>
              Finished
                {| fileCopiedCount := fileCopiedCount st;
                   fileIgnoredCount := fileIgnoredCount st;
                   fileSkippedCount := fileSkippedCount st;
                   copyErrorCount := copyErrorCount st;
                   stdout := stdout st ++ summary (List.length files) st;
                   log := log st;
                   fs := fs st |}
          end
      end
  end.

(** The whole script: the start-up block, then [main]. *)
Definition script (inputKeys outputKeys : list str) (argv : list str)
  (s : FS env) : outcome :=
  match startup inputKeys outputKeys [] with
  | (printed, false) => Exited printed
  | (_, true) => main inputKeys outputKeys argv s
  end.


End Orchestrator.

(** ** Vocabulary of the statements *)

(** The class of the capture groups, [[^\\/]]. *)
Definition pathCls : cls := NoneOf [BACKSLASH; SLASH].

(** A path component: not empty, and free of both separator characters. *)
Definition component (w : str) : Prop :=
  w <> [] /\ forall c, In c w -> c <> BACKSLASH /\ c <> SLASH.

(** [p] is made of the components [ws], separated by backslashes, after at
    most one leading backslash. *)
Definition made_of (p : str) (ws : list str) : Prop :=
  Forall component ws /\
  (p = join [BACKSLASH] ws \/ p = BACKSLASH :: join [BACKSLASH] ws).

(** [key] passes [re.match(r"^\w+$", key)]. *)
Definition accepted (key : str) : bool := is_Some (re_match key_regex key).

(** A non-empty string over [A-Za-z0-9_]. *)
Definition ascii_name (key : str) : Prop :=
  key <> [] /\ forall c, In c key -> is_ascii_word c = true.

(** [s] without a line feed in last position. *)
Fixpoint chomp (s : str) : str :=
  match s with
  | [] => []
  | [c] => if N.eqb c LF then [] else [c]
  | c :: t => c :: chomp t
  end.

(** Every assertion that fails on some key, in the order in which the two
    loops reach them: what a validator that collects would report. *)
Definition input_violations (inputKeys : list str) (key : str)
  : list AssertionError :=
  (if accepted key then [] else [InvalidInputKey key]) ++
  (if Nat.eqb (count key inputKeys) 1 then [] else [DuplicateInputKey key]).

Definition output_violations (inputKeys : list str) (key : str)
  : list AssertionError :=
  (if accepted key then [] else [InvalidOutputKey key]) ++
  (if mem key inputKeys then [] else [UnknownOutputKey key]).

Definition violations (inputKeys outputKeys : list str) : list AssertionError :=
  flat_map (input_violations inputKeys) inputKeys ++
  flat_map (output_violations inputKeys) outputKeys.

(** The error names a key that has the defect the error states. *)
Definition explains (inputKeys outputKeys : list str) (e : AssertionError)
  : Prop :=
  match e with
  | InvalidInputKey key => In key inputKeys /\ accepted key = false
  | DuplicateInputKey key => In key inputKeys /\ 2 <= count key inputKeys
  | InvalidOutputKey key => In key outputKeys /\ accepted key = false
  | UnknownOutputKey key => In key outputKeys /\ ~ In key inputKeys
  end.

(** [s] with every forward slash written as a backslash: how the string of
    a relative path reads where the separator is the backslash. *)
Definition backslashed (s : str) : str :=
  map (fun c => if N.eqb c SLASH then BACKSLASH else c) s.

(** The four counters, in the order copied, ignored, skipped, failed. *)
Definition tallies (env : Collaborators) (st : state env)
  : nat * nat * nat * nat :=
  (fileCopiedCount st, fileIgnoredCount st, fileSkippedCount st,
   copyErrorCount st).

(** Exactly one of the four counters went up, by one. *)
Definition one_more (env : Collaborators) (st st' : state env) : Prop :=
  match tallies st with
  | (a, b, c, d) =>
      tallies st' = (S a, b, c, d) \/ tallies st' = (a, S b, c, d) \/
      tallies st' = (a, b, S c, d) \/ tallies st' = (a, b, c, S d)
  end.


(** How often a character occurs in a string. *)
Definition occurrences (c : char) (s : str) : nat :=
  List.length (filter (N.eqb c) s).

(** [p] does not begin with a backslash. *)
Definition no_leading_backslash (p : str) : Prop :=
  forall t, p <> BACKSLASH :: t.

(** A file system on which a copy that succeeds leaves its destination in
    place, and on which no action of the script makes an existing path
    disappear. *)
Definition keeps_what_exists (env : Collaborators) : Prop :=
  (forall a b s s', copy2 env a (absolute env b) s = (s', None) ->
                    path_exists env s' b = true) /\
  (forall a b s s' r p, copy2 env a b s = (s', r) ->
                        path_exists env s p = true ->
                        path_exists env s' p = true) /\
  (forall d s s' r p, mkdir_parents env d s = (s', r) ->
                      path_exists env s p = true ->
                      path_exists env s' p = true).

(** ** A small file system for the examples

    Paths are strings with backslashes, a file system is the list of its
    regular files with their content, directories exist as soon as a file
    lies below them, and nothing can be written on drive [R:]. *)
Fixpoint starts_with (pre s : str) : bool :=
  match pre, s with
  | [], _ => true
  | x :: pre', y :: s' => N.eqb x y && starts_with pre' s'
  | _ :: _, [] => false
  end.

Fixpoint after_separator (s : str) : str :=
  match s with
  | [] => []
  | c :: t => if N.eqb c BACKSLASH then t else after_separator t
  end.

Definition dirname (p : str) : str :=
  List.rev (after_separator (List.rev p)).

Definition toy_exists (s : list (str * str)) (p : str) : bool :=
  is_Some (lookup s p) ||
  existsb (fun entry => starts_with (p ++ [BACKSLASH]) (fst entry)) s.

Definition toy_copy2 (a b : str) (s : list (str * str))
  : list (str * str) * option exn :=
  if str_eqb a b then (s, Some (SameFileError (u "same file")))
  else if starts_with (u "R:") b then (s, Some (OSError (u "Permission denied")))
  else match lookup s a with
       | Some content => (s ++ [(b, content)], None)
       | None => (s, Some (OSError (u "No such file or directory")))
       end.

Definition toy : Collaborators :=
  {| FS := list (str * str);
     path := str;
     Path := backslashed;
     path_str := fun p => p;
     absolute := fun p => p;
     parent := dirname;
     relative_to := fun file root => skipn (S (List.length root)) file;
     joinpath := fun a b => a ++ [BACKSLASH] ++ b;
     glob_recursive := fun s pattern =>
       filter (starts_with (firstn (List.length pattern - 3) pattern))
         (map fst s);
     is_file := fun s p => is_Some (lookup s p);
     path_exists := toy_exists;
     mkdir_parents := fun _ s => (s, None);
     copy2 := toy_copy2 |}.

(** The same file system, except that a destination holding the code point
    0 makes [copy2] raise an exception that is no [OSError], as the
    interpreter does with [ValueError: embedded null byte]. *)
Definition toy_null : Collaborators :=
  {| FS := list (str * str);
     path := str;
     Path := backslashed;
     path_str := fun p => p;
     absolute := fun p => p;
     parent := dirname;
     relative_to := fun file root => skipn (S (List.length root)) file;
     joinpath := fun a b => a ++ [BACKSLASH] ++ b;
     glob_recursive := fun s pattern =>
       filter (starts_with (firstn (List.length pattern - 3) pattern))
         (map fst s);
     is_file := fun s p => is_Some (lookup s p);
     path_exists := toy_exists;
     mkdir_parents := fun _ s => (s, None);
     copy2 := fun a b s =>
       if existsb (N.eqb 0) b
       then (s, Some (OtherException (u "embedded null byte")))
       else toy_copy2 a b s |}.

(** Two albums under [C:\in]; one of them is already at its place under
    [C:\out]. *)
Definition toy_files : list (str * str) :=
  [(u "C:\in\rock\abbey", u "come together");
   (u "C:\in\jazz\kind", u "so what");
   (u "C:\in\readme", u "notes");
   (u "C:\out\kind\jazz", u "an older copy")].

(** The schemas of the examples. *)
Definition genre_album : list str := [u "genre"; u "album"].
Definition album_genre : list str := [u "album"; u "genre"].
Definition by_album : str -> option str :=
  transformFunction (inputPathRegex genre_album) album_genre.

(** * Properties *)

(** ** Strings and lists of names *)

Lemma str_eqb_eq (a b : str) : str_eqb a b = true <-> a = b.
Proof.
  revert b; induction a as [|x a IH]; intros [|y b]; simpl;
    try (split; [discriminate | congruence]); try tauto.
  rewrite andb_true_iff, N.eqb_eq, IH.
  split; [intros [-> ->]; reflexivity | intros H; injection H; auto].
Qed.

Lemma str_eqb_refl (a : str) : str_eqb a a = true.
Proof. apply str_eqb_eq; reflexivity. Qed.

Lemma str_eqb_neq (a b : str) : str_eqb a b = false <-> a <> b.
Proof.
  rewrite <- str_eqb_eq. destruct (str_eqb a b); split; congruence.
Qed.

Lemma mem_In (x : str) (l : list str) : mem x l = true <-> In x l.
Proof.
  unfold mem. rewrite existsb_exists. split.
  - intros [y [Hy E]]. apply str_eqb_eq in E. subst; assumption.
  - intros H. exists x. split; [assumption | apply str_eqb_refl].
Qed.

Lemma mem_false (x : str) (l : list str) : mem x l = false <-> ~ In x l.
Proof.
  rewrite <- mem_In. destruct (mem x l); split; congruence.
Qed.

Lemma count_cons (x y : str) (l : list str) :
  count x (y :: l) = (if str_eqb x y then 1 else 0) + count x l.
Proof. unfold count; simpl. destruct (str_eqb x y); reflexivity. Qed.

Lemma count_zero (x : str) (l : list str) : count x l = 0 <-> ~ In x l.
Proof.
  induction l as [|y l IH]; [simpl; unfold count; simpl; tauto|].
  rewrite count_cons. simpl. destruct (str_eqb x y) eqn:E.
  - apply str_eqb_eq in E. subst. split; [discriminate | intros H; exfalso; auto].
  - apply str_eqb_neq in E. simpl. rewrite IH. split.
    + intros H [H1 | H1]; [congruence | auto].
    + intros H H1; auto.
Qed.

Lemma count_pos (x : str) (l : list str) : In x l -> 1 <= count x l.
Proof.
  intros H. destruct (count x l) eqn:E; [|lia].
  apply count_zero in E. contradiction.
Qed.

Lemma NoDup_count (l : list str) :
  NoDup l <-> (forall x, In x l -> count x l = 1).
Proof.
  induction l as [|y l IH].
  - split; [intros _ x [] | constructor].
  - split.
    + intros H x Hx. inversion H as [|? ? Hn Hd]; subst.
      rewrite count_cons. destruct (str_eqb x y) eqn:E.
      * apply str_eqb_eq in E; subst.
        apply count_zero in Hn. rewrite Hn; reflexivity.
      * apply str_eqb_neq in E. destruct Hx as [Hx | Hx]; [congruence|].
        simpl. apply IH; assumption.
    + intros H. constructor.
      * intros Hy. specialize (H y (or_introl eq_refl)).
        rewrite count_cons, str_eqb_refl in H.
        apply count_pos in Hy. lia.
      * apply IH. intros x Hx. specialize (H x (or_intror Hx)).
        rewrite count_cons in H. destruct (str_eqb x y); [|exact H].
        apply count_pos in Hx. lia.
Qed.

Lemma distinct_NoDup (l : list str) : distinct l = true <-> NoDup l.
Proof.
  induction l as [|x l IH]; simpl.
  - split; [constructor | reflexivity].
  - rewrite andb_true_iff, negb_true_iff, mem_false, IH. split.
    + intros [H1 H2]; constructor; assumption.
    + intros H; inversion H; auto.
Qed.

(** ** Greedy repetition *)

Lemma try_down_top (A : Type) (f : nat -> option A) (n : nat) :
  (forall m, 1 <= m < n -> f m = None) ->
  try_down f n = match n with 0 => None | S _ => f n end.
Proof.
  intros H. destruct n as [|n]; [reflexivity|]. simpl.
  destruct (f (S n)); [reflexivity|].
  assert (G : forall k, k <= n -> try_down f k = None).
  { induction k as [|k IHk]; intros Hk; [reflexivity|].
    simpl. rewrite H by lia. apply IHk; lia. }
  apply G; lia.
Qed.

Lemma span_le (k : cls) (s : str) : span k s <= List.length s.
Proof.
  induction s as [|c s IH]; simpl; [lia|]. destruct (in_cls k c); simpl; lia.
Qed.

Lemma span_inside (k : cls) (s : str) (n : nat) :
  n < span k s -> exists c r, skipn n s = c :: r /\ in_cls k c = true.
Proof.
  revert n; induction s as [|c s IH]; simpl; intros n Hn; [lia|].
  destruct (in_cls k c) eqn:E; [|lia].
  destruct n as [|n]; simpl; [eauto|]. apply IH; lia.
Qed.

Lemma span_rest (k : cls) (s : str) :
  skipn (span k s) s = [] \/
  exists c r, skipn (span k s) s = c :: r /\ in_cls k c = false.
Proof.
  induction s as [|c s IH]; simpl; [left; reflexivity|].
  destruct (in_cls k c) eqn:E; simpl; [exact IH | right; eauto].
Qed.

Lemma span_taken (k : cls) (s : str) :
  forall c, In c (firstn (span k s) s) -> in_cls k c = true.
Proof.
  induction s as [|x s IH]; simpl; intros c Hc; [contradiction|].
  destruct (in_cls k x) eqn:E; simpl in Hc; [|contradiction].
  destruct Hc as [<- | Hc]; auto.
Qed.

Lemma span_app (k : cls) (w rest : str) :
  (forall c, In c w -> in_cls k c = true) ->
  (rest = [] \/ exists c r, rest = c :: r /\ in_cls k c = false) ->
  span k (w ++ rest) = List.length w.
Proof.
  intros Hw Hr. induction w as [|x w IH]; simpl.
  - destruct Hr as [-> | [c [r [-> E]]]]; simpl; [reflexivity|].
    rewrite E; reflexivity.
  - rewrite (Hw x (or_introl eq_refl)). f_equal. apply IH.
    intros c Hc; apply Hw; right; assumption.
Qed.

Lemma try_down_first (A : Type) (f : nat -> option A) (n : nat) (r : A) :
  f (S n) = Some r -> try_down f (S n) = Some r.
Proof. intros H; simpl; rewrite H; reflexivity. Qed.

Lemma try_down_none (A : Type) (f : nat -> option A) (n : nat) :
  (forall m, 1 <= m <= n -> f m = None) -> try_down f n = None.
Proof.
  induction n as [|n IH]; intros H; [reflexivity|].
  simpl. rewrite H by lia. apply IH. intros m Hm; apply H; lia.
Qed.

(** ** The matcher of relative paths *)

Lemma exec_Named (name : str) (k : cls) (q : pattern) (pos : nat) (s : str)
  (caps : captures) :
  exec (Named name k :: q) pos s caps =
  try_down
    (fun n => exec q (pos + n) (skipn n s) (caps ++ [(name, firstn n s)]))
    (span k s).
Proof. reflexivity. Qed.

Lemma in_pathCls (c : char) :
  in_cls pathCls c = true <-> c <> BACKSLASH /\ c <> SLASH.
Proof.
  unfold pathCls, in_cls; simpl.
  rewrite negb_true_iff, orb_false_r, orb_false_iff, !N.eqb_neq. tauto.
Qed.

Lemma in_pathCls_false (c : char) :
  in_cls pathCls c = false <-> c = BACKSLASH \/ c = SLASH.
Proof.
  unfold pathCls, in_cls; simpl.
  rewrite negb_false_iff, orb_false_r, orb_true_iff, !N.eqb_eq. tauto.
Qed.

(** A group followed by the separator: only the longest run can be followed
    by a backslash, so the shorter tries all fail. *)
Lemma exec_group_sep (name : str) (q : pattern) (pos : nat) (s : str)
  (caps : captures) :
  exec (Named name pathCls :: Lit BACKSLASH :: q) pos s caps =
  match span pathCls s with
  | 0 => None
  | S _ as n =>
      exec (Lit BACKSLASH :: q) (pos + n) (skipn n s)
        (caps ++ [(name, firstn n s)])
  end.
Proof.
  rewrite exec_Named, try_down_top.
  - destruct (span pathCls s); reflexivity.
  - intros m Hm. destruct (@span_inside pathCls s m) as [c [r [E Hc]]]; [lia|].
    cbn [exec]. rewrite E.
    apply in_pathCls in Hc. destruct Hc as [Hc _].
    apply N.eqb_neq in Hc. rewrite Hc. reflexivity.
Qed.

(** The last group, followed by [$]. *)
Lemma exec_group_eol (name : str) (pos : nat) (s : str) (caps : captures) :
  exec [Named name pathCls; Eol] pos s caps =
  match span pathCls s with
  | 0 => None
  | S _ as n =>
      match skipn n s with
      | [] => Some (caps ++ [(name, s)])
      | _ :: _ => None
      end
  end.
Proof.
  rewrite exec_Named.
  destruct (span pathCls s) as [|n] eqn:En; [reflexivity|].
  destruct (span_rest pathCls s) as [E | [c [r [E Hc]]]]; rewrite En in E.
  - rewrite E. apply try_down_first. cbn [exec]. rewrite E.
    rewrite <- (firstn_skipn (S n) s) at 2. rewrite E, app_nil_r. reflexivity.
  - rewrite E. apply try_down_none. intros m Hm. cbn [exec].
    assert (G : skipn (S n - m) (skipn m s) = c :: r).
    { rewrite skipn_skipn. replace (S n - m + m) with (S n) by lia. exact E. }
    destruct (skipn m s) as [|x [|y t]] eqn:Em.
    + rewrite skipn_nil in G. discriminate.
    + destruct (S n - m) as [|d]; simpl in G.
      * injection G as -> _. apply in_pathCls_false in Hc.
        destruct (N.eqb c LF) eqn:Ec; [|reflexivity].
        apply N.eqb_eq in Ec. subst c. destruct Hc; discriminate.
      * rewrite skipn_nil in G. discriminate.
    + reflexivity.
Qed.

Lemma joined_cons2 (g g' : item) (gs : list item) :
  joinedCaptureGroups (g :: g' :: gs) =
  g :: Lit BACKSLASH :: joinedCaptureGroups (g' :: gs).
Proof. reflexivity. Qed.

Lemma join_cons2 (sep w w' : str) (ws : list str) :
  join sep (w :: w' :: ws) = w ++ sep ++ join sep (w' :: ws).
Proof. reflexivity. Qed.

Lemma component_span (w rest : str) :
  component w ->
  (rest = [] \/ exists r, rest = BACKSLASH :: r) ->
  exists n, span pathCls (w ++ rest) = S n /\ S n = List.length w.
Proof.
  intros [Hne Hw] Hr.
  assert (E : span pathCls (w ++ rest) = List.length w).
  { apply span_app.
    - intros c Hc. apply in_pathCls. apply Hw; assumption.
    - destruct Hr as [-> | [r ->]]; [left; reflexivity|].
      right. exists BACKSLASH, r. split; [reflexivity|].
      apply in_pathCls_false. left; reflexivity. }
  destruct w as [|x w]; [congruence|]. exists (List.length w).
  split; [exact E | reflexivity].
Qed.

(** Every path made of as many components as there are keys is matched, and
    the groups capture the components in order. *)
Lemma exec_groups_complete (keys : list str) :
  keys <> [] ->
  forall (ws : list str) (pos : nat) (caps : captures),
    List.length ws = List.length keys ->
    Forall component ws ->
    exec (joinedCaptureGroups (captureGroups keys) ++ [Eol]) pos
      (join [BACKSLASH] ws) caps
    = Some (caps ++ combine keys ws).
Proof.
  induction keys as [|key keys IH]; [congruence|]. intros _ ws pos caps Hl Hc.
  destruct ws as [|w ws]; [discriminate|].
  inversion Hc as [|? ? Hw Hws]; subst.
  destruct keys as [|key' keys].
  - destruct ws; [|discriminate].
    change (joinedCaptureGroups (captureGroups [key]) ++ [Eol])
      with [Named key pathCls; Eol].
    simpl join. rewrite exec_group_eol.
    destruct (@component_span w []) as [n [E El]]; auto.
    rewrite app_nil_r in E. rewrite E, El, skipn_all. reflexivity.
  - destruct ws as [|w' ws]; [discriminate|].
    change (captureGroups (key :: key' :: keys))
      with (Named key pathCls :: captureGroups (key' :: keys)).
    change (captureGroups (key' :: keys))
      with (Named key' pathCls :: captureGroups keys).
    rewrite joined_cons2, <- !app_comm_cons, join_cons2.
    rewrite exec_group_sep.
    change ([BACKSLASH] ++ join [BACKSLASH] (w' :: ws))
      with (BACKSLASH :: join [BACKSLASH] (w' :: ws)).
    destruct (@component_span w (BACKSLASH :: join [BACKSLASH] (w' :: ws)))
      as [n [E El]]; [assumption | right; eexists; reflexivity |].
    rewrite E. cbv zeta. rewrite El, skipn_app, skipn_all, Nat.sub_diag, firstn_app, firstn_all,
      Nat.sub_diag. cbn [skipn firstn]. rewrite app_nil_r, app_nil_l.
    cbn [exec]. rewrite N.eqb_refl.
    change (Named key' pathCls :: captureGroups keys)
      with (captureGroups (key' :: keys)).
    rewrite IH; [|discriminate | simpl in *; lia | assumption].
    rewrite <- app_assoc. reflexivity.
Qed.

(** Conversely, whatever the groups match is such a path. *)
Lemma exec_groups_sound (keys : list str) :
  keys <> [] ->
  forall (pos : nat) (s : str) (caps r : captures),
    exec (joinedCaptureGroups (captureGroups keys) ++ [Eol]) pos s caps = Some r ->
    exists ws, List.length ws = List.length keys /\ Forall component ws /\
               s = join [BACKSLASH] ws /\ r = caps ++ combine keys ws.
Proof.
  induction keys as [|key keys IH]; [congruence|]. intros _ pos s caps r H.
  assert (Hfirst : forall n, span pathCls s = S n ->
                             component (firstn (S n) s)).
  { intros n En. split.
    - destruct s; [discriminate | simpl; discriminate].
    - intros c Hc. apply in_pathCls. apply (@span_taken pathCls s).
      rewrite En; exact Hc. }
  destruct keys as [|key' keys].
  - change (joinedCaptureGroups (captureGroups [key]) ++ [Eol])
      with [Named key pathCls; Eol] in H.
    rewrite exec_group_eol in H.
    destruct (span pathCls s) as [|n] eqn:En; [discriminate|].
    destruct (skipn (S n) s) eqn:Es; [|discriminate].
    injection H as <-. exists [s].
    assert (Ef : firstn (S n) s = s).
    { rewrite <- (firstn_skipn (S n) s) at 2. rewrite Es, app_nil_r; reflexivity. }
    repeat split; try reflexivity.
    constructor; [|constructor]. rewrite <- Ef. apply Hfirst; reflexivity.
  - change (captureGroups (key :: key' :: keys))
      with (Named key pathCls :: captureGroups (key' :: keys)) in H.
    change (captureGroups (key' :: keys))
      with (Named key' pathCls :: captureGroups keys) in H.
    rewrite joined_cons2, <- !app_comm_cons in H.
    rewrite exec_group_sep in H.
    destruct (span pathCls s) as [|n] eqn:En; [discriminate|].
    cbn [exec] in H.
    destruct (skipn (S n) s) as [|x s'] eqn:Es; [discriminate|].
    destruct (N.eqb x BACKSLASH) eqn:Ex; [|discriminate].
    apply N.eqb_eq in Ex; subst x.
    change (Named key' pathCls :: captureGroups keys)
      with (captureGroups (key' :: keys)) in H.
    apply IH in H; [|discriminate].
    destruct H as [ws [Hl [Hc [Hs Hr]]]].
    exists (firstn (S n) s :: ws). repeat split.
    + simpl in *; lia.
    + constructor; [apply Hfirst; reflexivity | assumption].
    + destruct ws as [|w' ws]; [discriminate|].
      rewrite join_cons2, <- Hs.
      change ([BACKSLASH] ++ s') with (BACKSLASH :: s').
      rewrite <- Es. symmetry; apply firstn_skipn.
    + rewrite Hr, <- app_assoc. reflexivity.
Qed.

Lemma try_down_some (A : Type) (f : nat -> option A) (n : nat) (r : A) :
  try_down f n = Some r -> exists m, 1 <= m <= n /\ f m = Some r.
Proof.
  induction n as [|n IH]; simpl; [discriminate|].
  destruct (f (S n)) eqn:E.
  - intros H; injection H as <-. exists (S n). split; [lia | exact E].
  - intros H. destruct (IH H) as [m [Hm Hf]]. exists m. split; [lia | exact Hf].
Qed.

(** A pattern without named groups captures nothing. *)
Lemma exec_no_groups (p : pattern) :
  group_names p = [] ->
  forall pos s caps r, exec p pos s caps = Some r -> r = caps.
Proof.
  induction p as [|i p IH]; intros Hg pos s caps r H.
  - simpl in H. congruence.
  - destruct i; simpl in Hg; try discriminate; cbn [exec] in H.
    + destruct (Nat.eqb pos 0); [eauto | discriminate].
    + destruct s as [|c [|c' t]]; [eauto | | discriminate].
      destruct (N.eqb c LF); [eauto | discriminate].
    + destruct s as [|x s']; [discriminate|].
      destruct (N.eqb x c); [eauto | discriminate].
    + destruct s as [|x s']; [eauto|].
      destruct (N.eqb x c); [|eauto].
      destruct (exec p (S pos) s' caps) eqn:E; [|eauto].
      injection H as <-. eauto.
    + apply try_down_some in H. destruct H as [m [_ H]]. eauto.
Qed.

Lemma join_head (ws : list str) :
  ws <> [] -> Forall component ws ->
  exists x t, join [BACKSLASH] ws = x :: t /\ x <> BACKSLASH.
Proof.
  intros Hne Hc. destruct ws as [|w ws]; [congruence|].
  inversion Hc as [|? ? [Hw Hin] _]; subst.
  destruct w as [|x w]; [congruence|].
  exists x. destruct ws as [|w' ws].
  - exists w. split; [reflexivity|]. apply Hin; left; reflexivity.
  - eexists. rewrite join_cons2. split; [reflexivity|].
    apply Hin; left; reflexivity.
Qed.

Lemma re_match_path_complete (inputKeys ws : list str) (p : str) :
  inputKeys <> [] ->
  List.length ws = List.length inputKeys ->
  made_of p ws ->
  re_match (inputPathRegex inputKeys) p = Some (combine inputKeys ws).
Proof.
  intros Hne Hl [Hc Hp]. unfold re_match, inputPathRegex. cbn [exec Nat.eqb].
  assert (Hws : ws <> []).
  { destruct ws; [destruct inputKeys; [congruence | discriminate] | discriminate]. }
  destruct (join_head Hws Hc) as [x [t [Ej Hx]]].
  destruct Hp as [-> | ->].
  - rewrite Ej. apply N.eqb_neq in Hx. rewrite Hx. rewrite <- Ej.
    apply exec_groups_complete; assumption.
  - rewrite N.eqb_refl.
    rewrite exec_groups_complete by assumption. reflexivity.
Qed.

Lemma re_match_path_sound (inputKeys : list str) (p : str) (r : captures) :
  inputKeys <> [] ->
  re_match (inputPathRegex inputKeys) p = Some r ->
  exists ws, List.length ws = List.length inputKeys /\ made_of p ws /\
             r = combine inputKeys ws.
Proof.
  intros Hne. unfold re_match, inputPathRegex. cbn [exec Nat.eqb].
  assert (G : forall pos s, exec
                (joinedCaptureGroups (captureGroups inputKeys) ++ [Eol])
                pos s [] = Some r ->
              exists ws, List.length ws = List.length inputKeys /\
                         Forall component ws /\ s = join [BACKSLASH] ws /\
                         r = combine inputKeys ws).
  { intros pos s H. apply (exec_groups_sound Hne) in H. exact H. }
  destruct p as [|x s'].
  - intros H. destruct (G _ _ H) as [ws [Hl [Hc [Hs Hr]]]].
    exists ws. repeat split; auto.
  - destruct (N.eqb x BACKSLASH) eqn:Ex.
    + apply N.eqb_eq in Ex; subst x.
      destruct (exec (joinedCaptureGroups (captureGroups inputKeys) ++ [Eol])
                  1 s' []) eqn:E1.
      * intros H; injection H as <-.
        destruct (G _ _ E1) as [ws [Hl [Hc [Hs Hr]]]].
        exists ws. repeat split; auto. right. rewrite Hs; reflexivity.
      * intros H. destruct (G _ _ H) as [ws [Hl [Hc [Hs Hr]]]].
        exists ws. repeat split; auto.
    + intros H. destruct (G _ _ H) as [ws [Hl [Hc [Hs Hr]]]].
      exists ws. repeat split; auto.
Qed.

(** With no key there is no group, and the dict of a match is empty. *)
Lemma re_match_path_nokeys (p : str) (r : captures) :
  re_match (inputPathRegex []) p = Some r -> r = [].
Proof. apply exec_no_groups. reflexivity. Qed.

(** ** Compiling the pattern *)

Lemma group_names_joined (keys : list str) :
  group_names (joinedCaptureGroups (captureGroups keys)) = keys.
Proof.
  induction keys as [|k [|k' keys] IH]; try reflexivity.
  change (captureGroups (k :: k' :: keys))
    with (Named k pathCls :: Named k' pathCls :: captureGroups keys).
  rewrite joined_cons2.
  change (Named k' pathCls :: captureGroups keys)
    with (captureGroups (k' :: keys)).
  simpl group_names. simpl in IH. rewrite IH. reflexivity.
Qed.

Lemma group_names_inputPathRegex (keys : list str) :
  group_names (inputPathRegex keys) = keys.
Proof.
  unfold inputPathRegex, group_names. simpl.
  rewrite flat_map_app. simpl. rewrite app_nil_r. apply group_names_joined.
Qed.

(** [getTransformPathFunction] returns exactly when every key is an
    identifier and no key is repeated. *)
Lemma getTransformPathFunction_Some (inputKeys outputKeys : list str)
  (f : str -> option str) :
  getTransformPathFunction inputKeys outputKeys = Some f <->
  (forallb isidentifier inputKeys = true /\ NoDup inputKeys) /\
  f = transformFunction (inputPathRegex inputKeys) outputKeys.
Proof.
  unfold getTransformPathFunction, re_compile.
  rewrite group_names_inputPathRegex.
  destruct (forallb isidentifier inputKeys) eqn:E1; simpl.
  - destruct (distinct inputKeys) eqn:E2.
    + apply distinct_NoDup in E2. split.
      * intros H; injection H as <-. auto.
      * intros [_ ->]. reflexivity.
    + split; [discriminate|]. intros [[_ Hn] _].
      apply distinct_NoDup in Hn. congruence.
  - split; [discriminate|]. intros [[? _] _]. discriminate.
Qed.

(** ** The transform function *)

Lemma transform_complete (inputKeys outputKeys ws : list str) (p : str) :
  inputKeys <> [] ->
  List.length ws = List.length inputKeys ->
  made_of p ws ->
  transformFunction (inputPathRegex inputKeys) outputKeys p =
  Some (join [SLASH] (selected (combine inputKeys ws) outputKeys)).
Proof.
  intros Hne Hl Hm. unfold transformFunction.
  rewrite (re_match_path_complete Hne Hl Hm).
  destruct inputKeys as [|k keys]; [congruence|].
  destruct ws as [|w ws]; [discriminate|]. reflexivity.
Qed.

Lemma transform_sound (inputKeys outputKeys : list str) (p d : str) :
  transformFunction (inputPathRegex inputKeys) outputKeys p = Some d ->
  inputKeys <> [] /\
  exists ws, List.length ws = List.length inputKeys /\ made_of p ws /\
             d = join [SLASH] (selected (combine inputKeys ws) outputKeys).
Proof.
  unfold transformFunction.
  destruct (re_match (inputPathRegex inputKeys) p) as [parts|] eqn:E;
    [|discriminate].
  destruct inputKeys as [|k keys].
  - apply re_match_path_nokeys in E. subst parts. discriminate.
  - intros H. split; [discriminate|].
    apply re_match_path_sound in E; [|discriminate].
    destruct E as [ws [Hl [Hm ->]]]. exists ws.
    destruct ws as [|w ws]; [discriminate|].
    injection H as <-. auto.
Qed.

(** With no key the function answers None to every path. *)
Lemma transform_nokeys (outputKeys : list str) (p : str) :
  transformFunction (inputPathRegex []) outputKeys p = None.
Proof.
  destruct (transformFunction (inputPathRegex []) outputKeys p) eqn:E;
    [|reflexivity].
  apply transform_sound in E. destruct E as [E _]. congruence.
Qed.

(** ** The pattern of segment names *)

Lemma exec_plus_eol (k : cls) (pos : nat) (s : str) (caps : captures) :
  exec [Plus k; Eol] pos s caps =
  match span k s with
  | 0 => None
  | S _ as n =>
      match skipn n s with
      | [] => Some caps
      | [c] => if N.eqb c LF then Some caps else None
      | _ :: _ :: _ => None
      end
  end.
Proof.
  change (exec [Plus k; Eol] pos s caps)
    with (try_down (fun n => exec [Eol] (pos + n) (skipn n s) caps) (span k s)).
  destruct (span k s) as [|n] eqn:En; [reflexivity|].
  assert (Top : exec [Eol] (pos + S n) (skipn (S n) s) caps =
                match skipn (S n) s with
                | [] => Some caps
                | [c] => if N.eqb c LF then Some caps else None
                | _ :: _ :: _ => None
                end).
  { cbn [exec]. destruct (skipn (S n) s) as [|c [|c' t]]; reflexivity. }
  destruct (exec [Eol] (pos + S n) (skipn (S n) s) caps) as [r|] eqn:E.
  - rewrite <- Top. apply try_down_first. exact E.
  - rewrite <- Top. apply try_down_none. intros m Hm.
    destruct (Nat.eq_dec m (S n)) as [-> | Hne]; [exact E|].
    destruct (@span_inside k s m) as [c [r [Em Hc]]]; [lia|].
    assert (G : skipn (S n - m) (skipn m s) = skipn (S n) s).
    { rewrite skipn_skipn. f_equal. lia. }
    cbn [exec]. rewrite Em in *. destruct r as [|c' t]; [|reflexivity].
    destruct (S n - m) as [|d] eqn:Ed; [lia|].
    assert (G' : skipn (S d) [c] = []) by (simpl; apply skipn_nil).
    rewrite G' in G. rewrite <- G in E. cbn [exec] in E. discriminate.
Qed.

Lemma is_word_LF : is_word LF = false.
Proof. reflexivity. Qed.

Lemma is_ascii_word_is_word (c : char) : is_ascii_word c = true -> is_word c = true.
Proof.
  intros H. unfold is_word.
  assert (L : (c <? 128)%N = true).
  { apply N.ltb_lt. unfold is_ascii_word, is_ascii_letter, is_ascii_digit,
      UNDERSCORE in H.
    repeat rewrite ?orb_true_iff, ?andb_true_iff, ?N.leb_le, ?N.eqb_eq in H.
    lia. }
  rewrite L. exact H.
Qed.

Lemma chomp_app_LF (w : str) : chomp (w ++ [LF]) = w.
Proof.
  induction w as [|c w IH]; [reflexivity|].
  rewrite <- app_comm_cons. destruct (w ++ [LF]) as [|x t] eqn:E.
  - destruct w; discriminate.
  - change (chomp (c :: x :: t)) with (c :: chomp (x :: t)).
    rewrite IH. reflexivity.
Qed.

Lemma chomp_no_LF (s : str) : (forall c, In c s -> c <> LF) -> chomp s = s.
Proof.
  induction s as [|c [|c' t] IH]; intros H; [reflexivity | |].
  - simpl. destruct (N.eqb c LF) eqn:E; [|reflexivity].
    apply N.eqb_eq in E. exfalso. apply (H c); [left; reflexivity | exact E].
  - change (chomp (c :: c' :: t)) with (c :: chomp (c' :: t)).
    f_equal. apply IH. intros x Hx; apply H; right; exact Hx.
Qed.

(** What [^\w+$] lets through: word characters, at least one, then nothing
    or one line feed. *)
Lemma accepted_iff (key : str) :
  accepted key = true <->
  exists w, w <> [] /\ (forall c, In c w -> is_word c = true) /\
            (key = w \/ key = w ++ [LF]).
Proof.
  unfold accepted, re_match, key_regex.
  change (exec [Bol; Plus WordCls; Eol] 0 key [])
    with (exec [Plus WordCls; Eol] 0 key []).
  rewrite exec_plus_eol. split.
  - destruct (span WordCls key) as [|n] eqn:En; [discriminate|].
    intros H. exists (firstn (S n) key).
    assert (Hw : forall c, In c (firstn (S n) key) -> is_word c = true).
    { intros c Hc. apply (@span_taken WordCls key). rewrite En; exact Hc. }
    assert (Hne : firstn (S n) key <> []).
    { destruct key; [discriminate | simpl; discriminate]. }
    split; [exact Hne|]. split; [exact Hw|].
    pose proof (firstn_skipn (S n) key) as Hk.
    destruct (skipn (S n) key) as [|c [|c' t]].
    + left. rewrite app_nil_r in Hk. congruence.
    + destruct (N.eqb c LF) eqn:Ec; [|discriminate].
      apply N.eqb_eq in Ec; subst c. right. congruence.
    + discriminate.
  - intros [w [Hne [Hw Hk]]].
    assert (Hs : forall rest, rest = [] \/ rest = [LF] ->
                              span WordCls (w ++ rest) = List.length w).
    { intros rest Hr. apply span_app; [exact Hw|].
      destruct Hr as [-> | ->]; [left; reflexivity|].
      right. exists LF, []. split; [reflexivity | exact is_word_LF]. }
    assert (Hl : exists n, List.length w = S n).
    { destruct w; [congruence | eexists; reflexivity]. }
    destruct Hl as [n Hl].
    destruct Hk as [-> | ->].
    + rewrite <- (app_nil_r w) at 1. rewrite Hs by auto.
      rewrite Hl, <- Hl, skipn_all. reflexivity.
    + rewrite Hs by auto.
      rewrite Hl, <- Hl, skipn_app, skipn_all, Nat.sub_diag. reflexivity.
Qed.

Lemma accepted_ascii_name (key : str) : ascii_name key -> accepted key = true.
Proof.
  intros [Hne Hw]. apply accepted_iff. exists key.
  split; [exact Hne|]. split; [|left; reflexivity].
  intros c Hc. apply is_ascii_word_is_word. apply Hw; exact Hc.
Qed.

Lemma rejected (key : str) :
  chomp key = [] \/ (exists c, In c (chomp key) /\ is_word c = false) ->
  accepted key = false.
Proof.
  intros H. destruct (accepted key) eqn:E; [|reflexivity]. exfalso.
  apply accepted_iff in E. destruct E as [w [Hne [Hw Hk]]].
  assert (Hc : chomp key = w).
  { destruct Hk as [-> | ->]; [|apply chomp_app_LF].
    apply chomp_no_LF. intros c Hc Ec. subst c.
    apply Hw in Hc. rewrite is_word_LF in Hc. discriminate. }
  rewrite Hc in H. destruct H as [H | [c [Hin Hf]]]; [congruence|].
  apply Hw in Hin. congruence.
Qed.

(** ** The validator *)

Lemma validateInputKeys_from_None (inputKeys rest : list str) :
  validateInputKeys_from inputKeys rest = None <->
  forall key, In key rest -> accepted key = true /\ count key inputKeys = 1.
Proof.
  induction rest as [|key rest IH]; simpl.
  - split; [intros _ k [] | reflexivity].
  - fold (accepted key). destruct (accepted key) eqn:Ea; simpl.
    + destruct (Nat.eqb (count key inputKeys) 1) eqn:Ec; simpl.
      * apply Nat.eqb_eq in Ec. rewrite IH. split.
        -- intros H k [<- | Hk]; auto.
        -- intros H k Hk. apply H; right; exact Hk.
      * apply Nat.eqb_neq in Ec. split; [discriminate|].
        intros H. destruct (H key (or_introl eq_refl)). contradiction.
    + split; [discriminate|].
      intros H. destruct (H key (or_introl eq_refl)). congruence.
Qed.

Lemma validateOutputKeysConfig_None (inputKeys outputKeys : list str) :
  validateOutputKeysConfig inputKeys outputKeys = None <->
  forall key, In key outputKeys -> accepted key = true /\ In key inputKeys.
Proof.
  induction outputKeys as [|key rest IH]; simpl.
  - split; [intros _ k [] | reflexivity].
  - fold (accepted key). destruct (accepted key) eqn:Ea; simpl.
    + destruct (mem key inputKeys) eqn:Em; simpl.
      * apply mem_In in Em. rewrite IH. split.
        -- intros H k [<- | Hk]; auto.
        -- intros H k Hk. apply H; right; exact Hk.
      * apply mem_false in Em. split; [discriminate|].
        intros H. destruct (H key (or_introl eq_refl)). contradiction.
    + split; [discriminate|].
      intros H. destruct (H key (or_introl eq_refl)). congruence.
Qed.

(** Validation passes exactly on the pairs that keep the three rules. *)
Lemma validate_None (inputKeys outputKeys : list str) :
  validate inputKeys outputKeys = None <->
  (forall key, In key (inputKeys ++ outputKeys) -> accepted key = true) /\
  NoDup inputKeys /\ incl outputKeys inputKeys.
Proof.
  unfold validate, validateInputKeysConfig.
  destruct (validateInputKeys_from inputKeys inputKeys) eqn:E.
  - split; [discriminate|]. intros [Ha [Hn _]].
    assert (G : validateInputKeys_from inputKeys inputKeys = None).
    { apply validateInputKeys_from_None. intros k Hk. split.
      - apply Ha. apply in_or_app; left; exact Hk.
      - apply NoDup_count; assumption. }
    congruence.
  - rewrite validateInputKeys_from_None in E.
    rewrite validateOutputKeysConfig_None. split.
    + intros H. split; [|split].
      * intros k Hk. apply in_app_or in Hk. destruct Hk as [Hk | Hk].
        -- apply E; exact Hk.
        -- apply H; exact Hk.
      * apply NoDup_count. intros k Hk. apply E; exact Hk.
      * intros k Hk. apply H; exact Hk.
    + intros [Ha [_ Hi]] k Hk. split.
      * apply Ha. apply in_or_app; right; exact Hk.
      * apply Hi; exact Hk.
Qed.

Lemma hd_error_app (A : Type) (l1 l2 : list A) :
  hd_error (l1 ++ l2) =
  match hd_error l1 with Some e => Some e | None => hd_error l2 end.
Proof. destruct l1; reflexivity. Qed.

Lemma validateInputKeys_from_first (inputKeys rest : list str) :
  validateInputKeys_from inputKeys rest =
  hd_error (flat_map (input_violations inputKeys) rest).
Proof.
  induction rest as [|key rest IH]; [reflexivity|].
  simpl. unfold input_violations at 1. fold (accepted key).
  destruct (accepted key); simpl; [|reflexivity].
  destruct (Nat.eqb (count key inputKeys) 1); simpl; [exact IH | reflexivity].
Qed.

Lemma validateOutputKeysConfig_first (inputKeys outputKeys : list str) :
  validateOutputKeysConfig inputKeys outputKeys =
  hd_error (flat_map (output_violations inputKeys) outputKeys).
Proof.
  induction outputKeys as [|key rest IH]; [reflexivity|].
  simpl. unfold output_violations at 1. fold (accepted key).
  destruct (accepted key); simpl; [|reflexivity].
  destruct (mem key inputKeys); simpl; [exact IH | reflexivity].
Qed.

(** Fail-fast: the error raised is the first of all the violations. *)
Lemma validate_first (inputKeys outputKeys : list str) :
  validate inputKeys outputKeys = hd_error (violations inputKeys outputKeys).
Proof.
  unfold validate, validateInputKeysConfig, violations.
  rewrite hd_error_app, validateInputKeys_from_first,
    validateOutputKeysConfig_first. reflexivity.
Qed.

Lemma violations_explained (inputKeys outputKeys : list str)
  (e : AssertionError) :
  In e (violations inputKeys outputKeys) -> explains inputKeys outputKeys e.
Proof.
  unfold violations. intros H. apply in_app_or in H.
  destruct H as [H | H]; apply in_flat_map in H; destruct H as [key [Hk H]].
  - unfold input_violations in H. apply in_app_or in H. destruct H as [H | H].
    + destruct (accepted key) eqn:Ea; [contradiction|].
      destruct H as [<- | []]. split; assumption.
    + destruct (Nat.eqb (count key inputKeys) 1) eqn:Ec; [contradiction|].
      destruct H as [<- | []]. apply Nat.eqb_neq in Ec.
      pose proof (count_pos _ _ Hk). split; [assumption | lia].
  - unfold output_violations in H. apply in_app_or in H. destruct H as [H | H].
    + destruct (accepted key) eqn:Ea; [contradiction|].
      destruct H as [<- | []]. split; assumption.
    + destruct (mem key inputKeys) eqn:Em; [contradiction|].
      destruct H as [<- | []]. apply mem_false in Em. split; assumption.
Qed.

(** ** The binding of a path and the rebuilt path *)

Lemma lookup_combine_In (keys ws : list str) (key : str) :
  In key keys -> List.length ws = List.length keys ->
  exists v, lookup (combine keys ws) key = Some v /\ In v ws.
Proof.
  revert ws; induction keys as [|k keys IH]; intros ws Hin Hl; [contradiction|].
  destruct ws as [|w ws]; [discriminate|]. simpl.
  destruct (str_eqb key k) eqn:E.
  - exists w. split; [reflexivity | left; reflexivity].
  - apply str_eqb_neq in E. destruct Hin as [-> | Hin]; [congruence|].
    destruct (IH ws Hin) as [v [Hv Hw]]; [simpl in Hl; lia|].
    exists v. split; [exact Hv | right; exact Hw].
Qed.

Lemma selected_Forall2 (d : captures) (keys vs : list str) :
  Forall2 (fun key v => lookup d key = Some v) keys vs -> selected d keys = vs.
Proof.
  induction 1 as [|key v keys vs Hk _ IH]; [reflexivity|].
  simpl. rewrite Hk, IH. reflexivity.
Qed.

Lemma selected_found (d : captures) (keys : list str) :
  (forall key, In key keys -> exists v, lookup d key = Some v) ->
  Forall2 (fun key v => lookup d key = Some v) keys (selected d keys).
Proof.
  induction keys as [|key keys IH]; intros H; [constructor|].
  simpl. destruct (H key (or_introl eq_refl)) as [v Hv]. rewrite Hv.
  constructor; [exact Hv|]. apply IH. intros k Hk; apply H; right; exact Hk.
Qed.

Lemma selected_ext (d1 d2 : captures) (keys : list str) :
  (forall key, In key keys -> lookup d1 key = lookup d2 key) ->
  selected d1 keys = selected d2 keys.
Proof.
  induction keys as [|key keys IH]; intros H; [reflexivity|].
  simpl. rewrite (H key (or_introl eq_refl)), IH; [reflexivity|].
  intros k Hk; apply H; right; exact Hk.
Qed.

(** Read in the order of the keys, the binding gives the components back. *)
Lemma selected_self (keys ws : list str) :
  NoDup keys -> List.length ws = List.length keys ->
  selected (combine keys ws) keys = ws.
Proof.
  revert ws; induction keys as [|k keys IH]; intros ws Hn Hl.
  - destruct ws; [reflexivity | discriminate].
  - destruct ws as [|w ws]; [discriminate|].
    inversion Hn as [|? ? Hk Hn']; subst.
    simpl. rewrite str_eqb_refl. f_equal.
    rewrite <- (IH ws Hn') at 2 by (simpl in Hl; lia).
    apply selected_ext. intros key Hin. simpl.
    destruct (str_eqb key k) eqn:E; [|reflexivity].
    apply str_eqb_eq in E. subst. contradiction.
Qed.

Lemma lookup_combine_Forall2 (F : str -> option str) (keys vs : list str)
  (key : str) :
  Forall2 (fun k v => F k = Some v) keys vs -> In key keys ->
  lookup (combine keys vs) key = F key.
Proof.
  induction 1 as [|k v keys vs Hk _ IH]; intros Hin; [contradiction|].
  simpl. destruct (str_eqb key k) eqn:E.
  - apply str_eqb_eq in E. subst. symmetry; exact Hk.
  - apply str_eqb_neq in E. destruct Hin as [-> | Hin]; [congruence | auto].
Qed.

Lemma In_join (sep : str) (ws : list str) (c : char) :
  In c (join sep ws) -> In c sep \/ exists w, In w ws /\ In c w.
Proof.
  induction ws as [|w [|w' ws] IH]; intros H.
  - contradiction.
  - right. exists w. split; [left; reflexivity | exact H].
  - rewrite join_cons2 in H. apply in_app_or in H. destruct H as [H | H].
    + right. exists w. split; [left; reflexivity | exact H].
    + apply in_app_or in H. destruct H as [H | H]; [left; exact H|].
      destruct (IH H) as [Hs | [x [Hx Hc]]]; [left; exact Hs|].
      right. exists x. split; [right; exact Hx | exact Hc].
Qed.

Lemma made_of_no_slash (p : str) (ws : list str) :
  made_of p ws -> ~ In SLASH p.
Proof.
  intros [Hc Hp] Hin.
  assert (G : In SLASH (join [BACKSLASH] ws)).
  { destruct Hp as [-> | ->]; [exact Hin|].
    destruct Hin as [E | Hin]; [discriminate E | exact Hin]. }
  apply In_join in G. destruct G as [[E | []] | [w [Hw Hs]]]; [discriminate E|].
  rewrite Forall_forall in Hc. destruct (Hc w Hw) as [_ H].
  destruct (H SLASH Hs) as [_ H']. congruence.
Qed.

Lemma backslashed_component (w : str) : component w -> backslashed w = w.
Proof.
  intros [_ H]. unfold backslashed. induction w as [|c w IH]; [reflexivity|].
  simpl. destruct (H c (or_introl eq_refl)) as [_ Hc].
  apply N.eqb_neq in Hc. rewrite Hc. f_equal. apply IH.
  intros x Hx; apply H; right; exact Hx.
Qed.

Lemma backslashed_app (a b : str) :
  backslashed (a ++ b) = backslashed a ++ backslashed b.
Proof. apply map_app. Qed.

Lemma backslashed_join (vs : list str) :
  Forall component vs ->
  backslashed (join [SLASH] vs) = join [BACKSLASH] vs.
Proof.
  induction vs as [|v [|v' vs] IH]; intros H; [reflexivity | |].
  - inversion H; subst. apply backslashed_component; assumption.
  - inversion H as [|? ? Hv Hvs]; subst.
    rewrite !join_cons2, !backslashed_app, IH by assumption.
    rewrite (backslashed_component Hv). reflexivity.
Qed.

(** ** Claims on the path transformer *)

(** C1 (as amended).  For an input schema that is not empty, the compiled
    function returns a rebuilt path exactly when the string is made of as many
    components as the schema has names, each non-empty and free of backslash
    and forward slash, separated by single backslashes, after at most one
    leading backslash; any other string gets None.  With the empty schema
    every string gets None. *)
Theorem C1_transform_matches_exactly (inputKeys outputKeys : list str)
  (f : str -> option str) (p : str) :
  getTransformPathFunction inputKeys outputKeys = Some f ->
  (inputKeys <> [] ->
   (f p <> None <->
    exists ws, List.length ws = List.length inputKeys /\ made_of p ws)) /\
  (inputKeys = [] -> f p = None).
Proof.
  intros H. apply getTransformPathFunction_Some in H. destruct H as [_ ->].
  split.
  - intros Hne. split.
    + intros Hf.
      destruct (transformFunction (inputPathRegex inputKeys) outputKeys p)
        as [d|] eqn:E; [|congruence].
      apply transform_sound in E. destruct E as [_ [ws [Hl [Hm _]]]].
      exists ws; auto.
    + intros [ws [Hl Hm]]. rewrite (transform_complete outputKeys Hne Hl Hm).
      discriminate.
  - intros ->. apply transform_nokeys.
Qed.

(** C2.  A path is rebuilt exactly when it matches, and the rebuilt path is
    the values that the binding of the path (the i-th name of the input
    schema bound to the i-th component) holds for the names of the output
    schema, one value per name in the order of the output schema, repeated
    names included, joined by forward slashes. *)
Theorem C2_rebuilt_from_binding (inputKeys outputKeys : list str)
  (f : str -> option str) (p d : str) :
  getTransformPathFunction inputKeys outputKeys = Some f ->
  incl outputKeys inputKeys ->
  (f p = Some d <->
   inputKeys <> [] /\
   exists ws vs,
     List.length ws = List.length inputKeys /\ made_of p ws /\
     Forall2 (fun key v => lookup (combine inputKeys ws) key = Some v)
       outputKeys vs /\
     d = join [SLASH] vs).
Proof.
  intros H Hincl. apply getTransformPathFunction_Some in H.
  destruct H as [_ ->]. split.
  - intros E. apply transform_sound in E.
    destruct E as [Hne [ws [Hl [Hm ->]]]]. split; [exact Hne|].
    exists ws, (selected (combine inputKeys ws) outputKeys).
    repeat split; auto; try apply Hm.
    apply selected_found. intros key Hk.
    destruct (@lookup_combine_In inputKeys ws key) as [v [Hv _]]; auto.
    exists v; exact Hv.
  - intros [Hne [ws [vs [Hl [Hm [Hv ->]]]]]].
    rewrite (transform_complete outputKeys Hne Hl Hm).
    rewrite (selected_Forall2 _ Hv). reflexivity.
Qed.

(** C3 (as amended).  With input schema [a, b] and output schema [b, a] the
    path written with the backslash, x\y, is rebuilt as y/x; the string x/y
    is not matched. *)
Theorem C3_scenario_A :
  exists f,
    getTransformPathFunction [u "a"; u "b"] [u "b"; u "a"] = Some f /\
    f (u "x\y") = Some (u "y/x") /\
    f (u "x/y") = None.
Proof.
  eexists. split; [reflexivity|]. split; reflexivity.
Qed.

Lemma slash_in_join (v v' : str) (vs : list str) :
  In SLASH (join [SLASH] (v :: v' :: vs)).
Proof.
  rewrite join_cons2. apply in_or_app; right.
  apply in_or_app; left. left; reflexivity.
Qed.

Lemma Forall2_In_right (A B : Type) (R : A -> B -> Prop) (l : list A)
  (l' : list B) (y : B) :
  Forall2 R l l' -> In y l' -> exists x, In x l /\ R x y.
Proof.
  induction 1 as [|a b l l' Hab _ IH]; intros Hy; [contradiction|].
  destruct Hy as [<- | Hy].
  - exists a. split; [left; reflexivity | exact Hab].
  - destruct (IH Hy) as [x [Hx Hr]]. exists x. split; [right; exact Hx | exact Hr].
Qed.

Lemma forallb_Permutation (A : Type) (P : A -> bool) (l l' : list A) :
  Permutation l l' -> forallb P l = true -> forallb P l' = true.
Proof.
  intros Hp. rewrite !forallb_forall. intros H x Hx. apply H.
  apply (Permutation_in x (Permutation_sym Hp)); exact Hx.
Qed.

(** C6 (as amended).  When the output schema is a duplicate-free permutation
    of the input schema, the swapped pair compiles too, and a rebuilt path
    whose forward slashes are written as backslashes is transformed under the
    swapped pair into the components of the original path, in their original
    order, joined by forward slashes.  Handed over as it is, a rebuilt path
    of two or more components is not matched by the swapped pair. *)
Theorem C6_round_trip_through_backslashes (inputKeys outputKeys : list str)
  (f : str -> option str) (p d : str) :
  NoDup outputKeys ->
  Permutation outputKeys inputKeys ->
  getTransformPathFunction inputKeys outputKeys = Some f ->
  f p = Some d ->
  exists g ws,
    getTransformPathFunction outputKeys inputKeys = Some g /\
    List.length ws = List.length inputKeys /\ made_of p ws /\
    g (backslashed d) = Some (join [SLASH] ws) /\
    (2 <= List.length inputKeys -> g d = None).
Proof.
  intros Hnd Hperm Hf Hp.
  apply getTransformPathFunction_Some in Hf. destruct Hf as [[Hid Hni] ->].
  exists (transformFunction (inputPathRegex outputKeys) inputKeys).
  apply transform_sound in Hp. destruct Hp as [Hne [ws [Hl [Hm ->]]]].
  exists ws.
  assert (HinclO : incl outputKeys inputKeys).
  { intros k Hk. apply (Permutation_in k Hperm); exact Hk. }
  assert (HinclI : incl inputKeys outputKeys).
  { intros k Hk. apply (Permutation_in k (Permutation_sym Hperm)); exact Hk. }
  assert (HlO : List.length outputKeys = List.length inputKeys).
  { apply Permutation_length; exact Hperm. }
  assert (HneO : outputKeys <> []).
  { destruct outputKeys; [destruct inputKeys; [congruence | discriminate]
                         | discriminate]. }
  set (vs := selected (combine inputKeys ws) outputKeys).
  assert (Hvs : Forall2
            (fun key v => lookup (combine inputKeys ws) key = Some v)
            outputKeys vs).
  { apply selected_found. intros key Hk.
    destruct (@lookup_combine_In inputKeys ws key) as [v [Hv _]]; auto.
    exists v; exact Hv. }
  assert (Hlv : List.length vs = List.length outputKeys).
  { symmetry. apply (Forall2_length Hvs). }
  assert (Hcv : Forall component vs).
  { destruct Hm as [Hc _]. rewrite Forall_forall in *. intros v Hv.
    destruct (@Forall2_In_right _ _ _ _ _ _ Hvs Hv) as [key [Hk Hlk]].
    destruct (@lookup_combine_In inputKeys ws key) as [v' [Hv' Hw]]; auto.
    assert (v' = v) by congruence. subst v'. apply Hc; exact Hw. }
  repeat split.
  - apply getTransformPathFunction_Some. split; [|reflexivity]. split.
    + apply (forallb_Permutation _ (Permutation_sym Hperm)); exact Hid.
    + exact Hnd.
  - exact Hl.
  - apply Hm.
  - apply Hm.
  - rewrite (backslashed_join Hcv).
    rewrite (@transform_complete outputKeys inputKeys vs); auto.
    + f_equal. f_equal.
      rewrite <- (@selected_self inputKeys ws Hni Hl).
      apply selected_ext. intros key Hk.
      apply (@lookup_combine_Forall2
               (fun k => lookup (combine inputKeys ws) k) outputKeys vs key Hvs).
      apply HinclI; exact Hk.
    + split; [exact Hcv | left; reflexivity].
  - intros H2.
    destruct (transformFunction (inputPathRegex outputKeys) inputKeys
                (join [SLASH] vs)) as [d'|] eqn:E; [|reflexivity].
    exfalso. apply transform_sound in E. destruct E as [_ [ws' [_ [Hm' _]]]].
    apply made_of_no_slash in Hm'. apply Hm'.
    destruct vs as [|v [|v' vs']]; simpl in Hlv; try lia.
    apply slash_in_join.
Qed.

Lemma message_names_key (e : AssertionError) :
  exists before after, message e = before ++ offending e ++ after.
Proof. destruct e; unfold message, offending; do 2 eexists; reflexivity. Qed.

(** ** Claims on the validator *)

(** C4 (as amended).  Validation raises an error as soon as some name of the
    input or the output schema is empty or has, a line feed in last position
    apart, a character that is not a word character of [\w]; and on a pair
    whose names are non-empty strings over [A-Za-z0-9_], with no name twice
    in the input schema and every output name in the input schema, it
    raises nothing and the start-up block prints nothing. *)
Theorem C4_names_are_checked (inputKeys outputKeys : list str) :
  ((exists key, In key (inputKeys ++ outputKeys) /\
                (key = [] \/
                 exists c, In c (chomp key) /\ is_word c = false)) ->
   exists e, validate inputKeys outputKeys = Some e) /\
  ((forall key, In key (inputKeys ++ outputKeys) -> ascii_name key) ->
   NoDup inputKeys -> incl outputKeys inputKeys ->
   validate inputKeys outputKeys = None /\
   forall printed, startup inputKeys outputKeys printed = (printed, true)).
Proof.
  split.
  - intros [key [Hk Hbad]].
    destruct (validate inputKeys outputKeys) as [e|] eqn:E; [eauto|].
    exfalso. apply validate_None in E. destruct E as [Ha _].
    specialize (Ha key Hk).
    rewrite rejected in Ha; [discriminate|].
    destruct Hbad as [-> | Hc]; [left; reflexivity | right; exact Hc].
  - intros Hn Hd Hi.
    assert (E : validate inputKeys outputKeys = None).
    { apply validate_None. split; [|split; assumption].
      intros key Hk. apply accepted_ascii_name. apply Hn; exact Hk. }
    split; [exact E|]. intros printed. unfold startup. rewrite E. reflexivity.
Qed.

(** C5.  Validation raises an error whenever a name occurs twice in the
    input schema or a name of the output schema is missing from the input
    schema; the error raised is the first, in the order of the two loops, of
    all the failing assertions; it states a defect that its key has, its
    message spells that key out, and the start-up block prints the message
    and stops; on a pair that keeps the rules nothing is raised. *)
Theorem C5_duplicates_and_unknown_names (inputKeys outputKeys : list str) :
  ((~ NoDup inputKeys \/
    exists key, In key outputKeys /\ ~ In key inputKeys) ->
   exists e, validate inputKeys outputKeys = Some e) /\
  validate inputKeys outputKeys = hd_error (violations inputKeys outputKeys) /\
  (forall e, validate inputKeys outputKeys = Some e ->
             explains inputKeys outputKeys e /\
             (exists before after,
                message e = before ++ offending e ++ after) /\
             forall printed, exists text,
               startup inputKeys outputKeys printed =
               (printed ++ message e ++ text, false)) /\
  ((forall key, In key (inputKeys ++ outputKeys) -> accepted key = true) ->
   NoDup inputKeys -> incl outputKeys inputKeys ->
   validate inputKeys outputKeys = None).
Proof.
  split; [|split; [|split]].
  - intros H.
    destruct (validate inputKeys outputKeys) as [e|] eqn:E; [eauto|].
    exfalso. apply validate_None in E. destruct E as [_ [Hn Hi]].
    destruct H as [H | [key [Hk Hm]]]; [auto|]. apply Hm, Hi, Hk.
  - apply validate_first.
  - intros e He. split; [|split].
    + apply violations_explained. rewrite validate_first in He.
      destruct (violations inputKeys outputKeys); [discriminate|].
      injection He as ->. left; reflexivity.
    + apply message_names_key.
    + intros printed. unfold startup. rewrite He.
      eexists. reflexivity.
  - intros Ha Hn Hi. apply validate_None. auto.
Qed.

(** ** The copy loop *)

Section Loop.

Variable env : Collaborators.
Variable transformPath : str -> option str.
Variables sourceDir dstDir : path env.

Let rel (file : path env) : str := path_str env (relative_to env file sourceDir).
Let dest (d : str) : path env := joinpath env dstDir (Path env d).
Let src (file : path env) : path env :=
  joinpath env sourceDir (relative_to env file sourceDir).


(** A file whose path is not rebuilt is ignored. *)
Lemma process_ignored (st : state env) (file : path env) :
  transformPath (rel file) = None \/ transformPath (rel file) = Some [] ->
  exists st',
    process transformPath sourceDir dstDir st file = inr st' /\
    tallies st' = (fileCopiedCount st, S (fileIgnoredCount st),
                   fileSkippedCount st, copyErrorCount st) /\
    fs st' = fs st /\
    stdout st' = stdout st ++ u "!".
Proof.
  intros H. unfold process. fold (rel file).
  destruct H as [-> | ->]; eexists; (split; [reflexivity|]);
    unfold tallies; simpl; rewrite Nat.add_1_r; auto.
Qed.

Lemma process_skipped (st : state env) (file : path env) (c : char) (d : str) :
  transformPath (rel file) = Some (c :: d) ->
  path_exists env (fs st) (dest (c :: d)) = true ->
  exists st',
    process transformPath sourceDir dstDir st file = inr st' /\
    tallies st' = (fileCopiedCount st, fileIgnoredCount st,
                   S (fileSkippedCount st), copyErrorCount st) /\
    fs st' = fs st /\
    stdout st' = stdout st ++ u "-" /\
    log st' = log st ++
      [(WARNING, u "Skip file: " ++ path_str env (dest (c :: d))
                   ++ u " already exists")].
Proof.
  intros Ht He. unfold process. fold (rel file). rewrite Ht.
  fold (dest (c :: d)). rewrite He. simpl negb. cbv iota.
  eexists; split; [reflexivity|].
  unfold tallies; simpl; rewrite Nat.add_1_r; auto.
Qed.

Lemma process_failed (st : state env) (file : path env) (c : char) (d : str)
  (s' : FS env) (e : exn) :
  transformPath (rel file) = Some (c :: d) ->
  path_exists env (fs st) (dest (c :: d)) = false ->
  copyFile env (src file) (dest (c :: d)) (fs st) = (s', Some e) ->
  caught e = true ->
  exists st',
    process transformPath sourceDir dstDir st file = inr st' /\
    tallies st' = (fileCopiedCount st, fileIgnoredCount st,
                   fileSkippedCount st, S (copyErrorCount st)) /\
    fs st' = s' /\
    stdout st' = stdout st ++ u "E" /\
    In (ERROR, u "Error copying " ++ path_str env (src file) ++ u ": "
                 ++ exn_str e) (log st').
Proof.
  intros Ht He Hc Hcaught. unfold process. fold (rel file). rewrite Ht.
  fold (dest (c :: d)). rewrite He. simpl negb. cbv iota.
  fold (src file). rewrite Hc, Hcaught.
  eexists; split; [reflexivity|].
  unfold tallies; simpl; rewrite Nat.add_1_r. repeat split.
  apply in_or_app; right. left; reflexivity.
Qed.

Lemma process_copied (st : state env) (file : path env) (c : char) (d : str)
  (s' : FS env) :
  transformPath (rel file) = Some (c :: d) ->
  path_exists env (fs st) (dest (c :: d)) = false ->
  copyFile env (src file) (dest (c :: d)) (fs st) = (s', None) ->
  exists st',
    process transformPath sourceDir dstDir st file = inr st' /\
    tallies st' = (S (fileCopiedCount st), fileIgnoredCount st,
                   fileSkippedCount st, copyErrorCount st) /\
    fs st' = s' /\
    stdout st' = stdout st ++ u "+".
Proof.
  intros Ht He Hc. unfold process. fold (rel file). rewrite Ht.
  fold (dest (c :: d)). rewrite He. simpl negb. cbv iota.
  fold (src file). rewrite Hc.
  eexists; split; [reflexivity|].
  unfold tallies; simpl; rewrite Nat.add_1_r. auto.
Qed.

(** Whatever happens to a file, a turn that ends moves one counter. *)
Lemma process_one_more (st st' : state env) (file : path env) :
  process transformPath sourceDir dstDir st file = inr st' ->
  one_more st st'.
Proof.
  intros H. unfold one_more, tallies at 1.
  destruct (transformPath (rel file)) as [[|c d]|] eqn:Ht.
  - destruct (@process_ignored st file) as [x [Hx [Hy _]]]; [auto|].
    rewrite Hx in H. injection H as <-. auto.
  - destruct (path_exists env (fs st) (dest (c :: d))) eqn:He.
    + destruct (process_skipped st file Ht He) as [x [Hx [Hy _]]].
      rewrite Hx in H. injection H as <-. auto.
    + destruct (copyFile env (src file) (dest (c :: d)) (fs st))
        as [s1 [e|]] eqn:Hc.
      * destruct (caught e) eqn:Hcaught.
        -- destruct (process_failed st file Ht He Hc Hcaught) as [x [Hx [Hy _]]].
           rewrite Hx in H. injection H as <-. auto.
        -- exfalso. revert H. unfold process. fold (rel file). rewrite Ht.
           fold (dest (c :: d)). rewrite He. simpl negb. cbv iota.
           fold (src file). rewrite Hc, Hcaught. discriminate.
      * destruct (process_copied st file Ht He Hc) as [x [Hx [Hy _]]].
        rewrite Hx in H. injection H as <-. auto.
  - destruct (@process_ignored st file) as [x [Hx [Hy _]]]; [auto|].
    rewrite Hx in H. injection H as <-. auto.
Qed.





End Loop.

(** ** Claims on the copy loop *)

(** C7.  When the rebuilt destination of a file exists already, the turn of
    the loop ends normally: a warning is logged and [-] printed, the skipped
    counter alone goes up by one, and the file system is handed on as it was,
    so nothing is copied and the file at the destination keeps its
    content. *)
Theorem C7_existing_destination_is_skipped (env : Collaborators)
  (transformPath : str -> option str) (sourceDir dstDir : path env)
  (st : state env) (file : path env) (c : char) (d : str) :
  transformPath (path_str env (relative_to env file sourceDir)) = Some (c :: d) ->
  path_exists env (fs st) (joinpath env dstDir (Path env (c :: d))) = true ->
  exists st',
    process transformPath sourceDir dstDir st file = inr st' /\
    tallies st' = (fileCopiedCount st, fileIgnoredCount st,
                   S (fileSkippedCount st), copyErrorCount st) /\
    fs st' = fs st /\
    stdout st' = stdout st ++ u "-" /\
    log st' = log st ++
      [(WARNING, u "Skip file: "
                   ++ path_str env (joinpath env dstDir (Path env (c :: d)))
                   ++ u " already exists")].
Proof.
  intros Ht He. exact (process_skipped transformPath sourceDir dstDir st file Ht He).
Qed.




(** C9 (as amended).  With an empty output schema and an input schema that
    is not empty, every matching path is rebuilt as the empty string; with
    both schemas empty the function answers None.  Either way the loop takes
    the answer for no match: the file is counted as ignored, [!] is printed
    and the file system is left as it was. *)
Theorem C9_empty_output_schema (env : Collaborators) (inputKeys ws : list str)
  (f : str -> option str) (sourceDir dstDir : path env) (st : state env)
  (file : path env) :
  getTransformPathFunction inputKeys [] = Some f ->
  List.length ws = List.length inputKeys ->
  made_of (path_str env (relative_to env file sourceDir)) ws ->
  (inputKeys <> [] ->
   f (path_str env (relative_to env file sourceDir)) = Some []) /\
  (inputKeys = [] ->
   f (path_str env (relative_to env file sourceDir)) = None) /\
  exists st',
    process f sourceDir dstDir st file = inr st' /\
    tallies st' = (fileCopiedCount st, S (fileIgnoredCount st),
                   fileSkippedCount st, copyErrorCount st) /\
    fs st' = fs st /\
    stdout st' = stdout st ++ u "!".
Proof.
  intros Hf Hl Hm. apply getTransformPathFunction_Some in Hf.
  destruct Hf as [_ ->].
  assert (H1 : inputKeys <> [] ->
               transformFunction (inputPathRegex inputKeys) []
                 (path_str env (relative_to env file sourceDir)) = Some []).
  { intros Hne. rewrite (transform_complete [] Hne Hl Hm). reflexivity. }
  assert (H2 : inputKeys = [] ->
               transformFunction (inputPathRegex inputKeys) []
                 (path_str env (relative_to env file sourceDir)) = None).
  { intros ->. apply transform_nokeys. }
  split; [exact H1|]. split; [exact H2|].
  apply process_ignored.
  destruct inputKeys as [|k keys].
  - left. apply H2. reflexivity.
  - right. apply H1. discriminate.
Qed.

(** * Further properties *)

(** ** Validation, compilation and the order of the checks *)

(** Validation passes exactly on the pairs in which every name is one or
    more word characters, followed by nothing or by one line feed, no name
    occurs twice in the input schema, and every output name is an input
    name. *)
Theorem validate_passes_exactly (inputKeys outputKeys : list str) :
  validate inputKeys outputKeys = None <->
  (forall key, In key (inputKeys ++ outputKeys) ->
     exists w, w <> [] /\ (forall c, In c w -> is_word c = true) /\
               (key = w \/ key = w ++ [LF])) /\
  NoDup inputKeys /\ incl outputKeys inputKeys.
Proof.
  rewrite validate_None. split.
  - intros [Ha Hr]. split; [|exact Hr].
    intros key Hk. apply accepted_iff. apply Ha; exact Hk.
  - intros [Ha Hr]. split; [|exact Hr].
    intros key Hk. apply accepted_iff. apply Ha; exact Hk.
Qed.

Lemma compiles_iff_identifiers (inputKeys outputKeys : list str) :
  NoDup inputKeys ->
  (getTransformPathFunction inputKeys outputKeys = None <->
   exists key, In key inputKeys /\ isidentifier key = false).
Proof.
  intros Hn. split.
  - intros H. destruct (forallb isidentifier inputKeys) eqn:E.
    + assert (G : getTransformPathFunction inputKeys outputKeys =
                  Some (transformFunction (inputPathRegex inputKeys) outputKeys)).
      { apply getTransformPathFunction_Some. auto. }
      congruence.
    + assert (G : ~ forall key, In key inputKeys -> isidentifier key = true).
      { intros G. apply forallb_forall in G. congruence. }
      clear E H. induction inputKeys as [|k keys IH]; [exfalso; apply G; intros ? []|].
      destruct (isidentifier k) eqn:Ek.
      * inversion Hn; subst. destruct IH as [key [Hk Hf]]; [assumption | |].
        -- intros H. apply G. intros key [<- | Hk]; auto.
        -- exists key. split; [right; exact Hk | exact Hf].
      * exists k. split; [left; reflexivity | exact Ek].
  - intros [key [Hk Hf]].
    destruct (getTransformPathFunction inputKeys outputKeys) as [f|] eqn:E;
      [|reflexivity].
    apply getTransformPathFunction_Some in E. destruct E as [[Hid _] _].
    rewrite forallb_forall in Hid. rewrite (Hid key Hk) in Hf. discriminate.
Qed.

Lemma digit_first_not_identifier (d : char) (rest : str) :
  is_ascii_digit d = true -> isidentifier (d :: rest) = false.
Proof.
  intros H. simpl. unfold is_id_start.
  assert (L : (d <? 128)%N = true).
  { apply N.ltb_lt. unfold is_ascii_digit in H.
    rewrite andb_true_iff, !N.leb_le in H. lia. }
  rewrite L.
  assert (Hl : is_ascii_letter d = false).
  { unfold is_ascii_letter. unfold is_ascii_digit in H.
    rewrite andb_true_iff, !N.leb_le in H.
    apply orb_false_iff. split; apply andb_false_iff.
    - left. apply N.leb_gt. lia.
    - left. apply N.leb_gt. lia. }
  assert (Hu : N.eqb d UNDERSCORE = false).
  { apply N.eqb_neq. unfold is_ascii_digit in H. unfold UNDERSCORE.
    rewrite andb_true_iff, !N.leb_le in H. lia. }
  rewrite Hl, Hu. reflexivity.
Qed.

Lemma final_line_feed_not_identifier (w : str) :
  isidentifier (w ++ [LF]) = false.
Proof.
  destruct w as [|c w]; [reflexivity|]. simpl.
  apply andb_false_iff. right. rewrite forallb_app. simpl.
  apply andb_false_iff. right. reflexivity.
Qed.

(** A schema pair can pass validation and still stop the script: when a
    name of the input schema begins with an ASCII digit or ends with a line
    feed, validation having passed, [re.compile] refuses the name and the
    script ends in [re.error], whatever the command line and the files. *)
Theorem validated_names_that_do_not_compile (env : Collaborators)
  (inputKeys outputKeys argv : list str) (s : FS env) :
  validate inputKeys outputKeys = None ->
  (exists key, In key inputKeys /\
     ((exists d rest, key = d :: rest /\ is_ascii_digit d = true) \/
      (exists w, key = w ++ [LF]))) ->
  script env inputKeys outputKeys argv s = ReError env.
Proof.
  intros Hv [key [Hk Hbad]].
  assert (Hn : NoDup inputKeys) by (apply validate_None in Hv; tauto).
  assert (Hc : getTransformPathFunction inputKeys outputKeys = None).
  { apply (compiles_iff_identifiers outputKeys Hn). exists key.
    split; [exact Hk|].
    destruct Hbad as [[d [rest [-> Hd]]] | [w ->]].
    - apply digit_first_not_identifier; exact Hd.
    - apply final_line_feed_not_identifier. }
  unfold script, startup. rewrite Hv. unfold main. rewrite Hc. reflexivity.
Qed.

(** The script checks in this order: the schemas, then whether the pattern
    compiles, then the number of arguments.  A schema error is printed and
    ends the script whatever the arguments; a name that is no identifier
    ends it in [re.error] even when the arguments are wrong too; the usage
    line comes only when both are passed; and with three arguments the
    script goes into the loop. *)
Theorem script_order_of_checks (env : Collaborators)
  (inputKeys outputKeys argv : list str) (s : FS env) :
  (forall e, validate inputKeys outputKeys = Some e ->
     script env inputKeys outputKeys argv s =
     Exited env (message e ++ [LF]
       ++ u "Configuration error: please check the path mapping and try again"
       ++ [LF])) /\
  (validate inputKeys outputKeys = None ->
   (exists key, In key inputKeys /\ isidentifier key = false) ->
   script env inputKeys outputKeys argv s = ReError env) /\
  (validate inputKeys outputKeys = None ->
   (forall key, In key inputKeys -> isidentifier key = true) ->
   List.length argv <> 3 ->
   script env inputKeys outputKeys argv s = Exited env usage) /\
  (validate inputKeys outputKeys = None ->
   (forall key, In key inputKeys -> isidentifier key = true) ->
   List.length argv = 3 ->
   (exists st, script env inputKeys outputKeys argv s = Finished st) \/
   (exists e, script env inputKeys outputKeys argv s = Uncaught env e)).
Proof.
  split; [|split; [|split]].
  - intros e He. unfold script, startup. rewrite He. reflexivity.
  - intros Hv Hbad.
    assert (Hn : NoDup inputKeys) by (apply validate_None in Hv; tauto).
    unfold script, startup. rewrite Hv. unfold main.
    rewrite (proj2 (compiles_iff_identifiers outputKeys Hn) Hbad). reflexivity.
  - intros Hv Hid Hl.
    assert (Hn : NoDup inputKeys) by (apply validate_None in Hv; tauto).
    unfold script, startup. rewrite Hv. unfold main.
    rewrite (proj2 (getTransformPathFunction_Some inputKeys outputKeys _)
               (conj (conj (proj2 (forallb_forall _ _) Hid) Hn) eq_refl)).
    destruct argv as [|a0 [|a1 [|a2 [|a3 t]]]]; try reflexivity.
    simpl in Hl. congruence.
  - intros Hv Hid Hl.
    assert (Hn : NoDup inputKeys) by (apply validate_None in Hv; tauto).
    unfold script, startup. rewrite Hv. unfold main.
    rewrite (proj2 (getTransformPathFunction_Some inputKeys outputKeys _)
               (conj (conj (proj2 (forallb_forall _ _) Hid) Hn) eq_refl)).
    destruct argv as [|a0 [|a1 [|a2 [|a3 t]]]]; try discriminate Hl.
    cbn [getRootsFromCommandLine].
    destruct (process_all _ _ _ _ _) as [e|st]; [right | left]; eauto.
Qed.

(** ** More on the transform function *)

Lemma split_unique (sep : char) (w w' t t' : str) :
  w ++ t = w' ++ t' ->
  ~ In sep w -> ~ In sep w' ->
  (t = [] \/ exists r, t = sep :: r) ->
  (t' = [] \/ exists r, t' = sep :: r) ->
  w = w' /\ t = t'.
Proof.
  revert w'; induction w as [|x w IH]; intros w' E Hw Hw' Ht Ht'.
  - destruct w' as [|y w']; [auto|]. exfalso. simpl in E.
    destruct Ht as [-> | [r ->]]; [discriminate|].
    injection E as <- _. apply Hw'. left; reflexivity.
  - destruct w' as [|y w'].
    + exfalso. simpl in E. destruct Ht' as [-> | [r ->]]; [discriminate|].
      injection E as -> _. apply Hw. left; reflexivity.
    + simpl in E. injection E as -> E.
      destruct (IH w' E) as [-> ->]; auto.
      * intros H; apply Hw; right; exact H.
      * intros H; apply Hw'; right; exact H.
Qed.

Lemma join_cons_form (sep : char) (w : str) (r : list str) :
  join [sep] (w :: r) =
  w ++ match r with [] => [] | _ :: _ => sep :: join [sep] r end.
Proof.
  destruct r as [|w' r]; [simpl; rewrite app_nil_r; reflexivity|].
  rewrite join_cons2. reflexivity.
Qed.

(** A string is the join of at most one list of non-empty pieces free of
    the separator. *)
Lemma join_unique (sep : char) (ws ws' : list str) :
  (forall w, In w ws -> w <> [] /\ ~ In sep w) ->
  (forall w, In w ws' -> w <> [] /\ ~ In sep w) ->
  join [sep] ws = join [sep] ws' -> ws = ws'.
Proof.
  revert ws'; induction ws as [|w r IH]; intros ws' H H' E.
  - destruct ws' as [|w' r']; [reflexivity|]. exfalso.
    rewrite join_cons_form in E. simpl in E.
    destruct (H' w' (or_introl eq_refl)) as [Hne _].
    destruct w'; [congruence | discriminate].
  - destruct ws' as [|w' r'].
    + exfalso. rewrite join_cons_form in E. simpl in E.
      destruct (H w (or_introl eq_refl)) as [Hne _].
      destruct w; [congruence | discriminate].
    + rewrite !join_cons_form in E.
      destruct (H w (or_introl eq_refl)) as [_ Hw].
      destruct (H' w' (or_introl eq_refl)) as [_ Hw'].
      destruct (@split_unique sep w w' _ _ E Hw Hw') as [-> Et].
      * destruct r; [left; reflexivity | right; eexists; reflexivity].
      * destruct r'; [left; reflexivity | right; eexists; reflexivity].
      * f_equal. destruct r as [|a r]; destruct r' as [|a' r'];
          try discriminate; [reflexivity|].
        injection Et as Et. apply IH.
        -- intros x Hx; apply H; right; exact Hx.
        -- intros x Hx; apply H'; right; exact Hx.
        -- exact Et.
Qed.

Lemma selected_components (keys outputKeys ws : list str) :
  List.length ws = List.length keys ->
  Forall component ws ->
  Forall component (selected (combine keys ws) outputKeys).
Proof.
  intros Hl Hc. induction outputKeys as [|key rest IH]; simpl; [constructor|].
  destruct (lookup (combine keys ws) key) as [v|] eqn:E; [|exact IH].
  constructor; [|exact IH].
  assert (Hin : In v ws).
  { clear IH. revert ws Hl Hc E. induction keys as [|k keys IHk];
      intros ws Hl Hc E; destruct ws as [|w ws]; simpl in *; try discriminate.
    destruct (str_eqb key k).
    - injection E as <-. left; reflexivity.
    - right. inversion Hc; subst. apply IHk; auto. }
  rewrite Forall_forall in Hc. apply Hc; exact Hin.
Qed.

Lemma component_pieces (vs : list str) :
  Forall component vs ->
  forall w, In w vs -> w <> [] /\ ~ In SLASH w.
Proof.
  intros H w Hw. rewrite Forall_forall in H. destruct (H w Hw) as [Hne Hc].
  split; [exact Hne|]. intros Hs. destruct (Hc SLASH Hs) as [_ G]. congruence.
Qed.

Lemma Forall2_agree (F G : str -> option str) (keys vs : list str) (key : str) :
  Forall2 (fun k v => F k = Some v) keys vs ->
  Forall2 (fun k v => G k = Some v) keys vs ->
  In key keys -> F key = G key.
Proof.
  intros HF. revert G. induction HF as [|k v keys vs Hk _ IH];
    intros G HG Hin; [contradiction|].
  inversion HG; subst. destruct Hin as [<- | Hin]; [congruence|].
  apply IH; assumption.
Qed.

(** When every name of the input schema is used in the output schema, two
    paths that are rebuilt as the same path are made of the same
    components: no two files of different relative paths are sent to one
    destination. *)
Theorem transform_is_injective (inputKeys outputKeys : list str)
  (f : str -> option str) (p p' d : str) :
  getTransformPathFunction inputKeys outputKeys = Some f ->
  incl outputKeys inputKeys ->
  incl inputKeys outputKeys ->
  f p = Some d -> f p' = Some d ->
  exists ws, made_of p ws /\ made_of p' ws.
Proof.
  intros Hf HO HI Hp Hp'.
  apply getTransformPathFunction_Some in Hf. destruct Hf as [[_ Hn] ->].
  apply transform_sound in Hp. destruct Hp as [_ [ws [Hl [Hm Hd]]]].
  apply transform_sound in Hp'. destruct Hp' as [_ [ws' [Hl' [Hm' Hd']]]].
  exists ws. split; [exact Hm|].
  assert (Hv : selected (combine inputKeys ws) outputKeys =
               selected (combine inputKeys ws') outputKeys).
  { apply (@join_unique SLASH).
    - apply component_pieces. apply selected_components; [exact Hl | apply Hm].
    - apply component_pieces. apply selected_components; [exact Hl' | apply Hm'].
    - congruence. }
  assert (HF : forall bound, List.length bound = List.length inputKeys ->
             Forall2 (fun k v => lookup (combine inputKeys bound) k = Some v)
               outputKeys (selected (combine inputKeys bound) outputKeys)).
  { intros bound Hb. apply selected_found. intros key Hk.
    destruct (@lookup_combine_In inputKeys bound key) as [v [Hv' _]]; auto.
    exists v; exact Hv'. }
  pose proof (HF ws Hl) as F1. pose proof (HF ws' Hl') as F2.
  rewrite <- Hv in F2.
  assert (E : ws = ws').
  { rewrite <- (@selected_self inputKeys ws Hn Hl).
    rewrite <- (@selected_self inputKeys ws' Hn Hl').
    apply selected_ext. intros key Hk.
    apply (@Forall2_agree _ _ outputKeys
             (selected (combine inputKeys ws) outputKeys) key F1 F2).
    apply HI; exact Hk. }
  rewrite E. exact Hm'.
Qed.

Lemma join_nonempty (sep : str) (vs : list str) :
  vs <> [] -> Forall component vs -> join sep vs <> [].
Proof.
  intros Hne Hc. destruct vs as [|v vs]; [congruence|].
  inversion Hc as [|? ? [Hv _] _]; subst.
  destruct v as [|c v]; [congruence|].
  destruct vs; simpl; discriminate.
Qed.

(** With an output schema that is not empty and draws its names from the
    input schema, a rebuilt path is never the empty string; so a file whose
    turn ends is counted as ignored exactly when its relative path does not
    match the input schema. *)
Theorem ignored_exactly_when_no_match (env : Collaborators)
  (inputKeys outputKeys : list str) (f : str -> option str)
  (sourceDir dstDir : path env) (st st' : state env) (file : path env) :
  getTransformPathFunction inputKeys outputKeys = Some f ->
  incl outputKeys inputKeys -> outputKeys <> [] ->
  process f sourceDir dstDir st file = inr st' ->
  (forall p d, f p = Some d -> d <> []) /\
  (fileIgnoredCount st' = S (fileIgnoredCount st) <->
   ~ exists ws, List.length ws = List.length inputKeys /\
                made_of (path_str env (relative_to env file sourceDir)) ws).
Proof.
  intros Hf HO Hne Hp.
  assert (Hd : forall p d, f p = Some d -> d <> []).
  { intros p d E. apply getTransformPathFunction_Some in Hf.
    destruct Hf as [_ ->]. apply transform_sound in E.
    destruct E as [_ [ws [Hl [Hm ->]]]].
    apply join_nonempty.
    - destruct outputKeys as [|k rest]; [congruence|]. simpl.
      destruct (@lookup_combine_In inputKeys ws k) as [v [Hv _]];
        [apply HO; left; reflexivity | exact Hl |].
      rewrite Hv. discriminate.
    - apply selected_components; [exact Hl | apply Hm]. }
  split; [exact Hd|].
  pose proof (process_one_more _ _ _ _ _ Hp) as Hone.
  destruct (f (path_str env (relative_to env file sourceDir)))
    as [d|] eqn:E.
  - assert (Hm : exists ws, List.length ws = List.length inputKeys /\
                   made_of (path_str env (relative_to env file sourceDir)) ws).
    { apply getTransformPathFunction_Some in Hf. destruct Hf as [_ ->].
      apply transform_sound in E. destruct E as [_ [ws [Hl [Hm _]]]].
      exists ws; auto. }
    split; [|intros H; contradiction].
    intros Hi. exfalso.
    destruct d as [|c d]; [exact (Hd _ _ E eq_refl)|].
    revert Hp Hi. unfold process. rewrite E.
    destruct (negb _).
    + destruct (copyFile _ _ _ _) as [s1 [e|]]; [destruct (caught e)|];
        try discriminate; intros H; injection H as <-; simpl; lia.
    + intros H; injection H as <-; simpl; lia.
  - split.
    + intros _ [ws [Hl Hm]].
      destruct inputKeys as [|k keys].
      * destruct outputKeys as [|o rest]; [congruence|].
        apply (HO o). left; reflexivity.
      * apply getTransformPathFunction_Some in Hf. destruct Hf as [_ ->].
        rewrite (@transform_complete (k :: keys) outputKeys ws) in E;
          [discriminate | discriminate | exact Hl | exact Hm].
    + intros _.
      destruct (@process_ignored env f sourceDir dstDir st file
                  (or_introl E)) as [x [Hx [Ht _]]].
      rewrite Hx in Hp. injection Hp as <-.
      unfold tallies in Ht. congruence.
Qed.

Lemma lookup_combine_absent (keys ws : list str) (key : str) :
  ~ In key keys -> lookup (combine keys ws) key = None.
Proof.
  revert ws; induction keys as [|k keys IH]; intros ws H; [reflexivity|].
  destruct ws as [|w ws]; [reflexivity|]. simpl.
  destruct (str_eqb key k) eqn:E.
  - apply str_eqb_eq in E. subst. exfalso. apply H. left; reflexivity.
  - apply IH. intros Hin. apply H. right; exact Hin.
Qed.

Lemma selected_app (d : captures) (l1 l2 : list str) :
  selected d (l1 ++ l2) = selected d l1 ++ selected d l2.
Proof.
  induction l1 as [|k l1 IH]; [reflexivity|].
  simpl. destruct (lookup d k); simpl; rewrite IH; reflexivity.
Qed.

(** A name of the output schema that the input schema does not have raises
    no [KeyError]: it is passed over, and the rebuilt path is the one of the
    output schema without that name. *)
Theorem unknown_output_name_is_passed_over (inputKeys before after : list str)
  (key : str) (f g : str -> option str) (p : str) :
  getTransformPathFunction inputKeys (before ++ key :: after) = Some f ->
  getTransformPathFunction inputKeys (before ++ after) = Some g ->
  ~ In key inputKeys ->
  f p = g p.
Proof.
  intros Hf Hg Hk.
  apply getTransformPathFunction_Some in Hf. destruct Hf as [_ ->].
  apply getTransformPathFunction_Some in Hg. destruct Hg as [_ ->].
  destruct inputKeys as [|k keys]; [rewrite !transform_nokeys; reflexivity|].
  unfold transformFunction.
  destruct (re_match (inputPathRegex (k :: keys)) p) as [parts|] eqn:E;
    [|reflexivity].
  apply re_match_path_sound in E; [|discriminate].
  destruct E as [ws [Hl [_ ->]]].
  assert (Hlk : lookup (combine (k :: keys) ws) key = None)
    by (apply lookup_combine_absent; exact Hk).
  remember (combine (k :: keys) ws) as parts eqn:Ec.
  destruct parts as [|entry parts]; [reflexivity|].
  rewrite !selected_app. cbn [selected]. rewrite Hlk. reflexivity.
Qed.

(** One leading backslash makes no difference: a path that does not begin
    with a backslash is rebuilt the same with one put in front. *)
Theorem leading_backslash_is_dropped (inputKeys outputKeys : list str)
  (f : str -> option str) (p : str) :
  getTransformPathFunction inputKeys outputKeys = Some f ->
  no_leading_backslash p ->
  f (BACKSLASH :: p) = f p.
Proof.
  intros Hf Hp. apply getTransformPathFunction_Some in Hf.
  destruct Hf as [_ ->].
  destruct inputKeys as [|k keys]; [rewrite !transform_nokeys; reflexivity|].
  assert (Hne : k :: keys <> []) by discriminate.
  destruct (transformFunction (inputPathRegex (k :: keys)) outputKeys p)
    as [d|] eqn:E.
  - apply transform_sound in E. destruct E as [_ [ws [Hl [[Hc Hj] ->]]]].
    destruct Hj as [Hj | Hj]; [|exfalso; exact (Hp _ Hj)].
    apply transform_complete; [exact Hne | exact Hl |].
    split; [exact Hc | right; rewrite Hj; reflexivity].
  - destruct (transformFunction (inputPathRegex (k :: keys)) outputKeys
                (BACKSLASH :: p)) as [d|] eqn:E'; [|reflexivity].
    exfalso. apply transform_sound in E'.
    destruct E' as [_ [ws [Hl [[Hc Hj] _]]]].
    assert (Hws : ws <> []) by (destruct ws; [discriminate | discriminate]).
    destruct Hj as [Hj | Hj].
    + destruct (join_head Hws Hc) as [x [t [Ej Hx]]].
      rewrite Ej in Hj. injection Hj as Hj _. congruence.
    + injection Hj as Hj.
      rewrite (@transform_complete (k :: keys) outputKeys ws p) in E;
        [discriminate | exact Hne | exact Hl |].
      split; [exact Hc | left; exact Hj].
Qed.

(** ** More on the copy loop *)

(** The four ways a turn of the loop can end, with all that it changes. *)
Lemma process_cases (env : Collaborators) (transformPath : str -> option str)
  (sourceDir dstDir : path env) (st st' : state env) (file : path env) :
  process transformPath sourceDir dstDir st file = inr st' ->
  ((transformPath (path_str env (relative_to env file sourceDir)) = None \/
    transformPath (path_str env (relative_to env file sourceDir)) = Some []) /\
   tallies st' = (fileCopiedCount st, S (fileIgnoredCount st),
                  fileSkippedCount st, copyErrorCount st) /\
   stdout st' = stdout st ++ u "!" /\ fs st' = fs st /\
   List.length (log st') = S (List.length (log st))) \/
  (exists c d,
     transformPath (path_str env (relative_to env file sourceDir))
       = Some (c :: d) /\
     path_exists env (fs st) (joinpath env dstDir (Path env (c :: d))) = true /\
     tallies st' = (fileCopiedCount st, fileIgnoredCount st,
                    S (fileSkippedCount st), copyErrorCount st) /\
     stdout st' = stdout st ++ u "-" /\ fs st' = fs st /\
     List.length (log st') = S (List.length (log st))) \/
  (exists c d,
     transformPath (path_str env (relative_to env file sourceDir))
       = Some (c :: d) /\
     path_exists env (fs st) (joinpath env dstDir (Path env (c :: d))) = false /\
     copyFile env (joinpath env sourceDir (relative_to env file sourceDir))
       (joinpath env dstDir (Path env (c :: d))) (fs st) = (fs st', None) /\
     tallies st' = (S (fileCopiedCount st), fileIgnoredCount st,
                    fileSkippedCount st, copyErrorCount st) /\
     stdout st' = stdout st ++ u "+" /\
     List.length (log st') = S (List.length (log st))) \/
  (exists c d e,
     transformPath (path_str env (relative_to env file sourceDir))
       = Some (c :: d) /\
     path_exists env (fs st) (joinpath env dstDir (Path env (c :: d))) = false /\
     copyFile env (joinpath env sourceDir (relative_to env file sourceDir))
       (joinpath env dstDir (Path env (c :: d))) (fs st) = (fs st', Some e) /\
     caught e = true /\
     tallies st' = (fileCopiedCount st, fileIgnoredCount st,
                    fileSkippedCount st, S (copyErrorCount st)) /\
     stdout st' = stdout st ++ u "E" /\
     List.length (log st') = S (S (List.length (log st)))).
Proof.
  unfold process, tallies.
  destruct (transformPath (path_str env (relative_to env file sourceDir)))
    as [[|c d]|] eqn:Ht.
  - intros H; injection H as <-. left. simpl.
    rewrite Nat.add_1_r, length_app, Nat.add_1_r. auto 7.
  - destruct (path_exists env (fs st) (joinpath env dstDir (Path env (c :: d))))
      eqn:He; simpl negb; cbv iota.
    + intros H; injection H as <-. right; left. exists c, d. simpl.
      rewrite Nat.add_1_r, length_app, Nat.add_1_r. auto 7.
    + destruct (copyFile env _ _ (fs st)) as [s1 [e|]] eqn:Hc.
      * destruct (caught e) eqn:Hcaught; [|discriminate].
        intros H; injection H as <-. right; right; right. exists c, d, e.
        simpl. rewrite Nat.add_1_r, !length_app. simpl.
        rewrite !Nat.add_1_r. auto 8.
      * intros H; injection H as <-. right; right; left. exists c, d. simpl.
        rewrite Nat.add_1_r, length_app, Nat.add_1_r. auto 7.
  - intros H; injection H as <-. left. simpl.
    rewrite Nat.add_1_r, length_app, Nat.add_1_r. auto 7.
Qed.

Lemma occurrences_app (c : char) (a b : str) :
  occurrences c (a ++ b) = occurrences c a + occurrences c b.
Proof. unfold occurrences. rewrite filter_app, length_app. reflexivity. Qed.

Lemma process_all_marks (env : Collaborators)
  (transformPath : str -> option str) (sourceDir dstDir : path env)
  (files : list (path env)) (st st' : state env) :
  process_all transformPath sourceDir dstDir files st = inr st' ->
  exists marks,
    stdout st' = stdout st ++ marks /\
    List.length marks = List.length files /\
    fileCopiedCount st' = fileCopiedCount st + occurrences 43%N marks /\
    fileIgnoredCount st' = fileIgnoredCount st + occurrences 33%N marks /\
    fileSkippedCount st' = fileSkippedCount st + occurrences 45%N marks /\
    copyErrorCount st' = copyErrorCount st + occurrences 69%N marks.
Proof.
  revert st; induction files as [|file files IH]; intros st H; simpl in H.
  - injection H as <-. exists []. rewrite app_nil_r. simpl.
    unfold occurrences; simpl. repeat split; lia.
  - destruct (process transformPath sourceDir dstDir st file)
      as [e|st1] eqn:E; [discriminate|].
    destruct (IH _ H) as [marks [Ho [Hl [H1 [H2 [H3 H4]]]]]].
    apply process_cases in E. unfold tallies in E.
    destruct E as [E | [E | [E | E]]];
      [ destruct E as [_ [Ht [Hs _]]]
      | destruct E as [c [d [_ [_ [Ht [Hs _]]]]]]
      | destruct E as [c [d [_ [_ [_ [Ht [Hs _]]]]]]]
      | destruct E as [c [d [e [_ [_ [_ [_ [Ht [Hs _]]]]]]]]] ];
      injection Ht as Ha Hb Hc Hd;
      [exists (u "!" ++ marks) | exists (u "-" ++ marks)
      | exists (u "+" ++ marks) | exists (u "E" ++ marks)];
      rewrite Ho, Hs, <- app_assoc, !occurrences_app, length_app;
      (split; [reflexivity|]); (split; [simpl; lia|]);
      unfold occurrences at 1 3 5 7; simpl; repeat split; lia.
Qed.

(** The progress line has one mark per file, and the counters count the
    marks: [+] for copied, [!] for ignored, [-] for skipped, [E] for
    failed.  What [main] has printed when it returns is that line, with the
    counters starting at zero, followed by the summary. *)
Theorem progress_marks_match_tallies (env : Collaborators)
  (transformPath : str -> option str) (sourceDir dstDir : path env) :
  (forall files st st',
     process_all transformPath sourceDir dstDir files st = inr st' ->
     exists marks,
       stdout st' = stdout st ++ marks /\
       List.length marks = List.length files /\
       fileCopiedCount st' = fileCopiedCount st + occurrences 43%N marks /\
       fileIgnoredCount st' = fileIgnoredCount st + occurrences 33%N marks /\
       fileSkippedCount st' = fileSkippedCount st + occurrences 45%N marks /\
       copyErrorCount st' = copyErrorCount st + occurrences 69%N marks) /\
  (forall inputKeys outputKeys argv (s : FS env) st,
     main env inputKeys outputKeys argv s = Finished st ->
     exists root other marks,
       getRootsFromCommandLine env argv = Some (root, other) /\
       stdout st =
         marks ++ summary (List.length (getAllFilesInDirectory env s root)) st /\
       List.length marks = List.length (getAllFilesInDirectory env s root) /\
       tallies st = (occurrences 43%N marks, occurrences 33%N marks,
                     occurrences 45%N marks, occurrences 69%N marks)).
Proof.
  split.
  - intros files st st' H. eapply process_all_marks; exact H.
  - intros inputKeys outputKeys argv s st. unfold main.
    destruct (getTransformPathFunction inputKeys outputKeys) as [tp|];
      [|discriminate].
    destruct (getRootsFromCommandLine env argv) as [[sd dd]|]; [|discriminate].
    destruct (process_all tp sd dd (getAllFilesInDirectory env s sd)
                (initial env s)) as [e|st1] eqn:E; [discriminate|].
    intros H; injection H as <-.
    destruct (@process_all_marks env tp sd dd _ _ _ E)
      as [marks [Ho [Hl [H1 [H2 [H3 H4]]]]]].
    exists sd, dd, marks. split; [reflexivity|].
    simpl in Ho, H1, H2, H3, H4. unfold tallies. simpl.
    rewrite Ho, H1, H2, H3, H4. split; [|split; [exact Hl | reflexivity]].
    unfold summary; simpl. rewrite H1, H2, H3, H4. reflexivity.
Qed.


Lemma process_all_app (env : Collaborators) (transformPath : str -> option str)
  (sourceDir dstDir : path env) (pre rest : list (path env))
  (st st1 : state env) :
  process_all transformPath sourceDir dstDir pre st = inr st1 ->
  process_all transformPath sourceDir dstDir (pre ++ rest) st =
  process_all transformPath sourceDir dstDir rest st1.
Proof.
  revert st; induction pre as [|f pre IH]; intros st H; simpl in *.
  - injection H as <-. reflexivity.
  - destruct (process transformPath sourceDir dstDir st f) as [e|sa];
      [discriminate | apply IH; exact H].
Qed.

(** An exception of the copy that is neither an [OSError] nor a
    [SameFileError] is not caught: the loop ends at that file with the
    exception, whatever files remain, and [main] prints no summary. *)
Theorem other_exception_ends_the_loop (env : Collaborators)
  (transformPath : str -> option str) (sourceDir dstDir : path env)
  (pre rest : list (path env)) (file : path env) (st st1 : state env)
  (c : char) (d msg : str) (s' : FS env) :
  process_all transformPath sourceDir dstDir pre st = inr st1 ->
  transformPath (path_str env (relative_to env file sourceDir)) = Some (c :: d) ->
  path_exists env (fs st1) (joinpath env dstDir (Path env (c :: d))) = false ->
  copyFile env (joinpath env sourceDir (relative_to env file sourceDir))
    (joinpath env dstDir (Path env (c :: d))) (fs st1)
    = (s', Some (OtherException msg)) ->
  process_all transformPath sourceDir dstDir (pre ++ file :: rest) st =
  inl (OtherException msg).
Proof.
  intros Hpre Ht He Hc. rewrite (@process_all_app env transformPath sourceDir dstDir pre
             (file :: rest) st st1 Hpre).
  simpl. unfold process. rewrite Ht, He. simpl negb. cbv iota.
  rewrite Hc. reflexivity.
Qed.

Lemma copyFile_keeps (env : Collaborators) (a b p : path env)
  (s s' : FS env) (r : option exn) :
  keeps_what_exists env ->
  copyFile env a b s = (s', r) ->
  path_exists env s p = true -> path_exists env s' p = true.
Proof.
  intros [_ [Hcp Hmk]]. unfold copyFile.
  destruct (negb (path_exists env s (parent env b))).
  - destruct (mkdir_parents env (parent env b) s) as [s1 [e|]] eqn:E.
    + intros H Hp; injection H as <- _. eapply Hmk; eauto.
    + intros H Hp. eapply Hcp; [exact H|]. eapply Hmk; eauto.
  - intros H Hp. eapply Hcp; eauto.
Qed.

Lemma copyFile_settles (env : Collaborators) (a b : path env) (s s' : FS env) :
  keeps_what_exists env ->
  copyFile env a b s = (s', None) -> path_exists env s' b = true.
Proof.
  intros [Hdone _]. unfold copyFile.
  destruct (negb (path_exists env s (parent env b))).
  - destruct (mkdir_parents env (parent env b) s) as [s1 [e|]];
      [discriminate|]. intros H. eapply Hdone; exact H.
  - intros H. eapply Hdone; exact H.
Qed.

Lemma process_keeps (env : Collaborators) (transformPath : str -> option str)
  (sourceDir dstDir : path env) (st st' : state env) (file p : path env) :
  keeps_what_exists env ->
  process transformPath sourceDir dstDir st file = inr st' ->
  path_exists env (fs st) p = true -> path_exists env (fs st') p = true.
Proof.
  intros Hk H Hp. apply process_cases in H.
  destruct H as [H | [H | [H | H]]];
    [ destruct H as [_ [_ [_ [Hf _]]]]
    | destruct H as [c [d [_ [_ [_ [_ [Hf _]]]]]]]
    | destruct H as [c [d [_ [_ [Hc _]]]]]
    | destruct H as [c [d [e [_ [_ [Hc _]]]]]] ].
  - rewrite Hf; exact Hp.
  - rewrite Hf; exact Hp.
  - eapply copyFile_keeps; eauto.
  - eapply copyFile_keeps; eauto.
Qed.

Lemma process_all_keeps (env : Collaborators)
  (transformPath : str -> option str) (sourceDir dstDir : path env)
  (files : list (path env)) (st st' : state env) (p : path env) :
  keeps_what_exists env ->
  process_all transformPath sourceDir dstDir files st = inr st' ->
  path_exists env (fs st) p = true -> path_exists env (fs st') p = true.
Proof.
  intros Hk. revert st; induction files as [|f files IH]; intros st H Hp;
    simpl in H.
  - injection H as <-. exact Hp.
  - destruct (process transformPath sourceDir dstDir st f) as [e|sa] eqn:E;
      [discriminate|].
    apply (IH _ H). eapply process_keeps; eauto.
Qed.

Lemma errors_grow (env : Collaborators) (transformPath : str -> option str)
  (sourceDir dstDir : path env) (files : list (path env)) (st st' : state env) :
  process_all transformPath sourceDir dstDir files st = inr st' ->
  copyErrorCount st <= copyErrorCount st'.
Proof.
  intros H. destruct (@process_all_marks env transformPath sourceDir dstDir
              files st st' H)
    as [marks [_ [_ [_ [_ [_ He]]]]]]. lia.
Qed.

(** After a pass without a failed copy, every file that has a destination
    finds it in place. *)
Lemma after_a_clean_pass (env : Collaborators)
  (transformPath : str -> option str) (sourceDir dstDir : path env)
  (files : list (path env)) (st st1 : state env) :
  keeps_what_exists env ->
  process_all transformPath sourceDir dstDir files st = inr st1 ->
  copyErrorCount st1 = copyErrorCount st ->
  forall file c d, In file files ->
    transformPath (path_str env (relative_to env file sourceDir))
      = Some (c :: d) ->
    path_exists env (fs st1) (joinpath env dstDir (Path env (c :: d))) = true.
Proof.
  intros Hk. revert st; induction files as [|f files IH];
    intros st H Hclean file c d Hin Ht; [contradiction|].
  simpl in H.
  destruct (process transformPath sourceDir dstDir st f) as [e|sa] eqn:E;
    [discriminate|].
  pose proof (@errors_grow env transformPath sourceDir dstDir files sa st1 H)
    as Hle.
  pose proof (@process_cases env transformPath sourceDir dstDir st sa f E)
    as Hcase.
  assert (Hsa : copyErrorCount sa = copyErrorCount st).
  { assert (copyErrorCount st <= copyErrorCount sa).
    { apply (@errors_grow env transformPath sourceDir dstDir [f] st sa).
      simpl. rewrite E. reflexivity. }
    lia. }
  destruct Hin as [<- | Hin].
  - apply (@process_all_keeps env transformPath sourceDir dstDir files sa st1
             _ Hk H).
    unfold tallies in Hcase.
    destruct Hcase as [Hcase | [Hcase | [Hcase | Hcase]]];
      [ destruct Hcase as [[Hn | Hn] _]
      | destruct Hcase as [c0 [d0 [Ht0 [He [_ [_ [Hf _]]]]]]]
      | destruct Hcase as [c0 [d0 [Ht0 [_ [Hc _]]]]]
      | destruct Hcase as [c0 [d0 [e [_ [_ [_ [_ [Hta _]]]]]]]] ].
    + congruence.
    + congruence.
    + rewrite Hf. assert (Some (c :: d) = Some (c0 :: d0)) by congruence.
      congruence.
    + assert (Hcd : Some (c :: d) = Some (c0 :: d0)) by congruence.
      injection Hcd as -> ->. eapply copyFile_settles; eauto.
    + injection Hta as _ _ _ Hd. lia.
  - assert (Hq : copyErrorCount st1 = copyErrorCount sa) by lia.
    exact (IH sa H Hq file c d Hin Ht).
Qed.

(** When every destination is in place, a pass skips or ignores every file
    and changes nothing on the file system. *)
Lemma pass_over_settled_files (env : Collaborators)
  (transformPath : str -> option str) (sourceDir dstDir : path env)
  (files : list (path env)) (st : state env) :
  (forall file c d, In file files ->
     transformPath (path_str env (relative_to env file sourceDir))
       = Some (c :: d) ->
     path_exists env (fs st) (joinpath env dstDir (Path env (c :: d))) = true) ->
  exists st',
    process_all transformPath sourceDir dstDir files st = inr st' /\
    fs st' = fs st /\
    fileCopiedCount st' = fileCopiedCount st /\
    copyErrorCount st' = copyErrorCount st /\
    fileSkippedCount st' + fileIgnoredCount st' =
    fileSkippedCount st + fileIgnoredCount st + List.length files.
Proof.
  revert st; induction files as [|f files IH]; intros st Hs.
  - exists st. simpl. repeat split; lia.
  - assert (Hstep : exists sa,
              process transformPath sourceDir dstDir st f = inr sa /\
              fs sa = fs st /\
              fileCopiedCount sa = fileCopiedCount st /\
              copyErrorCount sa = copyErrorCount st /\
              fileSkippedCount sa + fileIgnoredCount sa =
              S (fileSkippedCount st + fileIgnoredCount st)).
    { destruct (transformPath (path_str env (relative_to env f sourceDir)))
        as [[|c d]|] eqn:Ht.
      - destruct (@process_ignored env transformPath sourceDir dstDir st f
                    (or_intror Ht)) as [sa [Hp [Hta [Hf _]]]].
        exists sa. unfold tallies in Hta. injection Hta as Ha Hb Hc Hd.
        repeat split; auto; lia.
      - destruct (@process_skipped env transformPath sourceDir dstDir st f c d
                    Ht (Hs f c d (or_introl eq_refl) Ht))
          as [sa [Hp [Hta [Hf _]]]].
        exists sa. unfold tallies in Hta. injection Hta as Ha Hb Hc Hd.
        repeat split; auto; lia.
      - destruct (@process_ignored env transformPath sourceDir dstDir st f
                    (or_introl Ht)) as [sa [Hp [Hta [Hf _]]]].
        exists sa. unfold tallies in Hta. injection Hta as Ha Hb Hc Hd.
        repeat split; auto; lia. }
    destruct Hstep as [sa [Hp [Hf [Hc [He Hn]]]]].
    destruct (IH sa) as [st' [Hp' [Hf' [Hc' [He' Hn']]]]].
    + intros file c d Hin Ht. rewrite Hf.
      exact (Hs file c d (or_intror Hin) Ht).
    + exists st'. simpl. rewrite Hp. repeat split; try congruence.
      simpl in *. lia.
Qed.

(** Running the loop again over the same files, after a pass in which no
    copy failed, copies nothing: every file is skipped or ignored, no copy
    fails, and the file system stays as the first pass left it.  This holds
    on a file system that keeps what exists. *)
Theorem second_pass_copies_nothing (env : Collaborators)
  (transformPath : str -> option str) (sourceDir dstDir : path env)
  (files : list (path env)) (st st1 st2 : state env) :
  keeps_what_exists env ->
  process_all transformPath sourceDir dstDir files st = inr st1 ->
  copyErrorCount st1 = copyErrorCount st ->
  fs st2 = fs st1 ->
  exists st3,
    process_all transformPath sourceDir dstDir files st2 = inr st3 /\
    fs st3 = fs st1 /\
    fileCopiedCount st3 = fileCopiedCount st2 /\
    copyErrorCount st3 = copyErrorCount st2 /\
    fileSkippedCount st3 + fileIgnoredCount st3 =
    fileSkippedCount st2 + fileIgnoredCount st2 + List.length files.
Proof.
  intros Hk H1 Hclean Hfs.
  destruct (@pass_over_settled_files env transformPath sourceDir dstDir
              files st2) as [st3 [Hp [Hf Hrest]]].
  - intros file c d Hin Ht. rewrite Hfs.
    eapply after_a_clean_pass; eauto.
  - exists st3. split; [exact Hp|]. split; [congruence | exact Hrest].
Qed.

(** ** Names that pass validation and stop the compilation

    [$] also holds before a final line feed, and [\w+] takes a leading digit:
    both names below pass [validate], and [re.compile] then refuses them as
    group names. *)
Remark final_line_feed_passes :
  validate [u "a" ++ [LF]] [] = None /\
  getTransformPathFunction [u "a" ++ [LF]] [] = None.
Proof. split; reflexivity. Qed.

Remark leading_digit_passes :
  validate [u "1a"] [u "1a"] = None /\
  getTransformPathFunction [u "1a"] [u "1a"] = None.
Proof. split; reflexivity. Qed.

End Python.

(** * Examples *)

Ltac component_tac :=
  split;
  [ discriminate
  | let c := fresh "c" in
    let H := fresh "H" in
    intros c H; cbv in H;
    repeat (destruct H as [<- | H];
            [split; (let E := fresh "E" in intro E; cbv in E; discriminate E)|]);
    contradiction ].

Ltac names_tac :=
  let k := fresh "k" in
  let H := fresh "H" in
  intros k H; cbn [In app] in H;
  repeat (destruct H as [<- | H]; [|]); try contradiction.


(** ** C1 *)

Lemma C1_transform_matches_exactly_witness :
  transformFunction ascii_only (inputPathRegex [u "a"; u "b"]) [u "b"; u "a"]
    (u "x\y") <> None <->
  exists ws, List.length ws = 2 /\ made_of (u "x\y") ws.
Proof.
  apply (proj1 (@C1_transform_matches_exactly ascii_only
                  [u "a"; u "b"] [u "b"; u "a"]
                  (transformFunction ascii_only (inputPathRegex [u "a"; u "b"])
                     [u "b"; u "a"])
                  (u "x\y") eq_refl)).
  discriminate.
Defined.

(** With the empty input schema the empty string has exactly as many
    components as the schema has names, none, and the compiled function
    answers None all the same: the dict of the match is empty, hence falsy.
    (No call here consults the Unicode database.) *)
Lemma C1_counterexample :
  (exists ws, List.length ws = List.length (@nil str) /\ made_of [] ws) /\
  exists f, getTransformPathFunction ascii_only [] [] = Some f /\ f [] = None.
Proof.
  split.
  - exists []. split; [reflexivity|]. split; [constructor | left; reflexivity].
  - eexists. split; reflexivity.
Defined.

(** ** C2 *)

Lemma C2_rebuilt_from_binding_witness :
  [u "a"; u "b"] <> [] /\
  exists ws vs,
    List.length ws = 2 /\ made_of (u "x\y") ws /\
    Forall2 (fun key v => lookup (combine [u "a"; u "b"] ws) key = Some v)
      [u "b"; u "b"; u "a"] vs /\
    u "y/y/x" = join [SLASH] vs.
Proof.
  apply (proj1 (@C2_rebuilt_from_binding ascii_only
                  [u "a"; u "b"] [u "b"; u "b"; u "a"]
                  (transformFunction ascii_only (inputPathRegex [u "a"; u "b"])
                     [u "b"; u "b"; u "a"])
                  (u "x\y") (u "y/y/x") eq_refl
                  ltac:(names_tac; cbn [In]; auto))).
  reflexivity.
Defined.

(** ** C3 *)

(** The string x/y is not matched: the separator of the pattern is the
    backslash, and a forward slash cannot be part of a component. *)
Lemma C3_counterexample :
  exists f,
    getTransformPathFunction ascii_only [u "a"; u "b"] [u "b"; u "a"] = Some f /\
    f (u "x/y") = None.
Proof. eexists. split; reflexivity. Defined.

(** ** C4 *)

Lemma C4_names_are_checked_witness :
  (exists e, validate ascii_only [u "year"; u "na-me"] [] = Some e) /\
  validate ascii_only [u "year"; u "name"] [u "name"; u "name"] = None.
Proof.
  split.
  - apply (proj1 (C4_names_are_checked ascii_only [u "year"; u "na-me"] [])).
    exists (u "na-me"). split; [right; left; reflexivity|].
    right. exists 45%N. split; [right; right; left; reflexivity | reflexivity].
  - apply (proj2 (C4_names_are_checked ascii_only [u "year"; u "name"]
                    [u "name"; u "name"])).
    + names_tac; split; try discriminate;
        intros c Hc; cbv in Hc;
        repeat (destruct Hc as [<- | Hc]; [reflexivity|]); contradiction.
    + apply distinct_NoDup. reflexivity.
    + names_tac; cbn [In]; auto.
Defined.

(** A name made of the letter U+00E9 alone holds a character outside
    [A-Za-z0-9_], and passes: [\w] takes the letters of every script. *)
Lemma C4_counterexample :
  is_ascii_word E_ACUTE = false /\
  validate with_e_acute [[E_ACUTE]] [] = None.
Proof. split; reflexivity. Defined.

(** ** C5 *)

Lemma C5_duplicates_and_unknown_names_witness :
  (exists e, validate ascii_only [u "a"; u "b"; u "a"] [] = Some e) /\
  (exists e, validate ascii_only [u "a"; u "b"] [u "c"] = Some e) /\
  explains ascii_only [u "a"; u "b"] [u "c"] (UnknownOutputKey (u "c")) /\
  validate ascii_only [u "a"; u "b"] [u "b"; u "b"] = None.
Proof.
  split; [|split; [|split]].
  - apply (proj1 (C5_duplicates_and_unknown_names ascii_only
                    [u "a"; u "b"; u "a"] [])).
    left. intros H. apply distinct_NoDup in H. discriminate H.
  - apply (proj1 (C5_duplicates_and_unknown_names ascii_only
                    [u "a"; u "b"] [u "c"])).
    right. exists (u "c"). split; [left; reflexivity|].
    intros H. apply mem_In in H. discriminate H.
  - apply (proj1 (proj2 (proj2 (C5_duplicates_and_unknown_names ascii_only
                                  [u "a"; u "b"] [u "c"])))).
    reflexivity.
  - apply (proj2 (proj2 (proj2 (C5_duplicates_and_unknown_names ascii_only
                                  [u "a"; u "b"] [u "b"; u "b"])))).
    + names_tac; reflexivity.
    + apply distinct_NoDup. reflexivity.
    + names_tac; cbn [In]; auto.
Defined.

(** ** C6 *)

Lemma C6_round_trip_through_backslashes_witness :
  exists g ws,
    getTransformPathFunction ascii_only [u "b"; u "a"] [u "a"; u "b"] = Some g /\
    List.length ws = 2 /\ made_of (u "x\y") ws /\
    g (u "y\x") = Some (join [SLASH] ws) /\
    (2 <= 2 -> g (u "y/x") = None).
Proof.
  apply (@C6_round_trip_through_backslashes ascii_only
           [u "a"; u "b"] [u "b"; u "a"]
           (transformFunction ascii_only (inputPathRegex [u "a"; u "b"])
              [u "b"; u "a"])
           (u "x\y") (u "y/x")).
  - apply distinct_NoDup. reflexivity.
  - apply perm_swap.
  - reflexivity.
  - reflexivity.
Defined.

(** The path x\y is rebuilt as y/x, and y/x is not matched by the swapped
    pair: the rebuilt path is joined by forward slashes, which the pattern
    does not take for separators. *)
Lemma C6_counterexample :
  exists f g,
    getTransformPathFunction ascii_only [u "a"; u "b"] [u "b"; u "a"] = Some f /\
    getTransformPathFunction ascii_only [u "b"; u "a"] [u "a"; u "b"] = Some g /\
    f (u "x\y") = Some (u "y/x") /\
    g (u "y/x") = None.
Proof. do 2 eexists. repeat split; reflexivity. Defined.

(** ** C7 *)

Lemma C7_existing_destination_is_skipped_witness :
  exists st',
    @process toy (by_album ascii_only) (u "C:\in") (u "C:\out") (initial toy toy_files)
      (u "C:\in\jazz\kind") = inr st' /\
    tallies st' = (0, 0, 1, 0) /\
    fs st' = toy_files.
Proof.
  destruct (@C7_existing_destination_is_skipped toy (by_album ascii_only)
              (u "C:\in") (u "C:\out") (initial toy toy_files)
              (u "C:\in\jazz\kind") 107%N (u "ind/jazz") eq_refl eq_refl)
    as [st' [H1 [H2 [H3 _]]]].
  exists st'. split; [exact H1|]. split; [exact H2 | exact H3].
Defined.

(** ** C8 *)


(** ** C9 *)

Lemma C9_empty_output_schema_witness :
  by_album ascii_only (u "rock\abbey") = Some (u "abbey/rock") /\
  transformFunction ascii_only (inputPathRegex genre_album) []
    (u "rock\abbey") = Some [] /\
  exists st',
    @process toy (transformFunction ascii_only (inputPathRegex genre_album) [])
      (u "C:\in") (u "C:\out") (initial toy toy_files) (u "C:\in\rock\abbey")
    = inr st' /\
    tallies st' = (0, 1, 0, 0).
Proof.
  split; [reflexivity|].
  destruct (@C9_empty_output_schema ascii_only toy genre_album
              [u "rock"; u "abbey"]
              (transformFunction ascii_only (inputPathRegex genre_album) [])
              (u "C:\in") (u "C:\out") (initial toy toy_files)
              (u "C:\in\rock\abbey") eq_refl eq_refl)
    as [H1 [_ [st' [H3 [H4 _]]]]].
  - split; [|left; reflexivity].
    constructor; [component_tac|]. constructor; [component_tac | constructor].
  - split; [apply H1; discriminate|].
    exists st'. split; [exact H3 | exact H4].
Defined.

(** With both schemas empty, the path made of one backslash matches (a
    leading separator and no component) and the answer is None, not the
    empty string. *)
Lemma C9_counterexample :
  (exists ws, List.length ws = List.length (@nil str) /\
              made_of [BACKSLASH] ws) /\
  exists f,
    getTransformPathFunction ascii_only [] [] = Some f /\
    f [BACKSLASH] = None /\ f [BACKSLASH] <> Some [].
Proof.
  split.
  - exists []. split; [reflexivity|]. split; [constructor | right; reflexivity].
  - eexists. split; [reflexivity|]. split; [reflexivity | discriminate].
Defined.

(** ** C10 *)


(** ** Further properties *)

Lemma lookup_snoc (s : list (str * str)) (b content : str) :
  is_Some (lookup (s ++ [(b, content)]) b) = true.
Proof.
  induction s as [|[k v] s IH]; simpl.
  - rewrite str_eqb_refl. reflexivity.
  - destruct (str_eqb b k); [reflexivity | exact IH].
Qed.

Lemma lookup_app_found (s t : list (str * str)) (p : str) :
  is_Some (lookup s p) = true -> is_Some (lookup (s ++ t) p) = true.
Proof.
  induction s as [|[k v] s IH]; simpl; [discriminate|].
  destruct (str_eqb p k); [reflexivity | exact IH].
Qed.

Lemma toy_exists_app (s t : list (str * str)) (p : str) :
  toy_exists s p = true -> toy_exists (s ++ t) p = true.
Proof.
  unfold toy_exists. rewrite !orb_true_iff, existsb_app, orb_true_iff.
  intros [H | H]; [left; apply lookup_app_found; exact H | right; left; exact H].
Qed.

Lemma toy_keeps_what_exists : keeps_what_exists toy.
Proof.
  split; [|split].
  - intros a b s s'. simpl. unfold toy_copy2.
    destruct (str_eqb a b); [discriminate|].
    destruct (starts_with (u "R:") b); [discriminate|].
    destruct (lookup s a) as [content|]; [|discriminate].
    intros H; injection H as <-. unfold toy_exists.
    rewrite lookup_snoc. reflexivity.
  - intros a b s s' r p. simpl. unfold toy_copy2.
    destruct (str_eqb a b); [intros H; injection H as <- _; auto|].
    destruct (starts_with (u "R:") b); [intros H; injection H as <- _; auto|].
    destruct (lookup s a) as [content|]; intros H; injection H as <- _; auto.
    apply toy_exists_app.
  - intros d s s' r p. simpl. intros H; injection H as <- _. auto.
Qed.

(** The state in which a pass over the files of [C:\in] leaves things. *)
Definition after_first_pass : state toy :=
  match @process_all toy (by_album ascii_only) (u "C:\in") (u "C:\out")
          (getAllFilesInDirectory toy toy_files (u "C:\in"))
          (initial toy toy_files) with
  | inr st => st
  | inl _ => initial toy toy_files
  end.

Lemma validate_passes_exactly_witness :
  (forall key, In key ([u "a"; u "b"] ++ [u "b"]) ->
     exists w, w <> [] /\ (forall c, In c w -> is_word ascii_only c = true) /\
               (key = w \/ key = w ++ [LF])) /\
  NoDup [u "a"; u "b"] /\ incl [u "b"] [u "a"; u "b"].
Proof.
  apply (proj1 (validate_passes_exactly ascii_only [u "a"; u "b"] [u "b"])).
  reflexivity.
Defined.

Lemma validated_names_that_do_not_compile_witness :
  script ascii_only toy [u "2020"; u "name"] [u "name"]
    [u "organize.py"; u "C:\in"; u "C:\out"] toy_files = ReError toy.
Proof.
  apply (@validated_names_that_do_not_compile ascii_only toy
           [u "2020"; u "name"] [u "name"]).
  - reflexivity.
  - exists (u "2020"). split; [left; reflexivity|].
    left. exists 50%N, (u "020"). split; reflexivity.
Defined.

Lemma script_order_of_checks_witness :
  script ascii_only toy genre_album album_genre [u "organize.py"; u "C:\in"]
    toy_files = Exited toy usage.
Proof.
  apply (proj1 (proj2 (proj2 (script_order_of_checks ascii_only toy
                                genre_album album_genre
                                [u "organize.py"; u "C:\in"] toy_files)))).
  - reflexivity.
  - names_tac; reflexivity.
  - discriminate.
Defined.

Lemma transform_is_injective_witness :
  exists ws, made_of (u "x\y") ws /\ made_of (u "\x\y") ws.
Proof.
  apply (@transform_is_injective ascii_only [u "a"; u "b"] [u "b"; u "a"]
           (transformFunction ascii_only (inputPathRegex [u "a"; u "b"])
              [u "b"; u "a"])
           (u "x\y") (u "\x\y") (u "y/x") eq_refl).
  - names_tac; cbn [In]; auto.
  - names_tac; cbn [In]; auto.
  - reflexivity.
  - reflexivity.
Defined.

Lemma ignored_exactly_when_no_match_witness :
  (forall p d, by_album ascii_only p = Some d -> d <> []) /\
  (fileIgnoredCount
     (match @process toy (by_album ascii_only) (u "C:\in") (u "C:\out")
              (initial toy toy_files) (u "C:\in\readme") with
      | inr st => st
      | inl _ => initial toy toy_files
      end) = 1 <->
   ~ exists ws, List.length ws = 2 /\ made_of (u "readme") ws).
Proof.
  apply (@ignored_exactly_when_no_match ascii_only toy genre_album album_genre
           (by_album ascii_only) (u "C:\in") (u "C:\out")
           (initial toy toy_files) _ (u "C:\in\readme") eq_refl).
  - names_tac; unfold genre_album; cbn [In]; auto.
  - discriminate.
  - reflexivity.
Defined.

Lemma unknown_output_name_is_passed_over_witness :
  transformFunction ascii_only (inputPathRegex [u "a"; u "b"])
    ([u "b"] ++ u "c" :: [u "a"]) (u "x\y") =
  transformFunction ascii_only (inputPathRegex [u "a"; u "b"])
    ([u "b"] ++ [u "a"]) (u "x\y").
Proof.
  apply (@unknown_output_name_is_passed_over ascii_only [u "a"; u "b"]
           [u "b"] [u "a"] (u "c") _ _ (u "x\y") eq_refl eq_refl).
  intros H. apply mem_In in H. discriminate H.
Defined.

Lemma leading_backslash_is_dropped_witness :
  by_album ascii_only (BACKSLASH :: u "rock\abbey") =
  by_album ascii_only (u "rock\abbey").
Proof.
  apply (@leading_backslash_is_dropped ascii_only genre_album album_genre
           (by_album ascii_only) (u "rock\abbey") eq_refl).
  intros t H. discriminate H.
Defined.

Lemma progress_marks_match_tallies_witness :
  exists marks,
    stdout after_first_pass = [] ++ marks /\
    List.length marks = 3 /\
    fileCopiedCount after_first_pass = 0 + occurrences 43%N marks.
Proof.
  destruct (proj1 (progress_marks_match_tallies ascii_only toy
                     (by_album ascii_only)
                     (u "C:\in") (u "C:\out"))
              (getAllFilesInDirectory toy toy_files (u "C:\in"))
              (initial toy toy_files) after_first_pass eq_refl)
    as [marks [H1 [H2 [H3 _]]]].
  exists marks. split; [exact H1|]. split; [exact H2 | exact H3].
Defined.


Lemma other_exception_ends_the_loop_witness :
  @process_all toy_null (by_album ascii_only) (u "C:\in") (u "C:\out")
    ([u "C:\in\readme"] ++
     (u "C:\in\rock\" ++ [0%N]) :: [u "C:\in\jazz\kind"])
    (initial toy_null toy_files)
  = inl (OtherException (u "embedded null byte")).
Proof.
  apply (@other_exception_ends_the_loop toy_null (by_album ascii_only)
           (u "C:\in") (u "C:\out") [u "C:\in\readme"]
           [u "C:\in\jazz\kind"] (u "C:\in\rock\" ++ [0%N])
           (initial toy_null toy_files)
           (match @process_all toy_null (by_album ascii_only) (u "C:\in")
                    (u "C:\out") [u "C:\in\readme"]
                    (initial toy_null toy_files) with
            | inr st => st
            | inl _ => initial toy_null toy_files
            end)
           0%N (u "/rock") (u "embedded null byte") toy_files).
  - reflexivity.
  - reflexivity.
  - reflexivity.
  - reflexivity.
Defined.

Lemma second_pass_copies_nothing_witness :
  exists st3,
    @process_all toy (by_album ascii_only) (u "C:\in") (u "C:\out")
      (getAllFilesInDirectory toy toy_files (u "C:\in"))
      (initial toy (fs after_first_pass)) = inr st3 /\
    fs st3 = fs after_first_pass /\
    fileCopiedCount st3 = 0.
Proof.
  destruct (@second_pass_copies_nothing toy (by_album ascii_only)
              (u "C:\in") (u "C:\out")
              (getAllFilesInDirectory toy toy_files (u "C:\in"))
              (initial toy toy_files) after_first_pass
              (initial toy (fs after_first_pass))
              toy_keeps_what_exists eq_refl eq_refl eq_refl)
    as [st3 [H1 [H2 [H3 _]]]].
  exists st3. split; [exact H1|]. split; [exact H2 | exact H3].
Defined.
